(** * xo-rl-js: tabular reinforcement learning for tic-tac-toe

    A shallow embedding of the board model (game.js), the reward function
    (rewards.js) and the learning agents (agent.js, one module for each
    class), followed by the properties of the specification that they do or
    do not satisfy.

    JavaScript values are modelled by the small sum type [value]; arrays are
    lists of values, reading outside an array yields [Undefined]; the tables
    [Q] and [countQ] (JavaScript [Map]s keyed by strings) are [gmap]s;
    numbers stored in the tables are exact rationals. *)

From Stdlib Require Import ZArith QArith Qround String Ascii List Lia Lqa.
From Stdlib Require Import DecimalString DecimalNat DecimalFacts Permutation Sorted.
From stdpp Require Import base option list gmap strings.

Local Open Scope string_scope.
Local Open Scope nat_scope.

(** JavaScript numbers held in the tables, under exact arithmetic. *)
Abbreviation number := QArith_base.Q.

Definition Qltb (x y : number) : bool := negb (Qle_bool y x).

(** ** JavaScript values and arrays *)

Module Js.

Inductive value :=
| Undefined
| Null
| Str (s : string).

(** Errors thrown by the program. [TypeError] is the engine's own error for a
    property read on [undefined]. *)
Inductive error :=
| InvalidActionError
| MisalignedPlayerError
| NotImplementedError
| TypeError.

Inductive result (A : Type) :=
| Ok (a : A)
| Throw (e : error).
Arguments Ok {A} a.
Arguments Throw {A} e.

(** [a[i]]: a read outside the array gives [undefined]. *)
Definition get (a : list value) (i : nat) : value :=
  match a !! i with
  | Some v => v
  | None => Undefined
  end.

(** [a[i] = v]: an assignment past the end extends the array with holes, as
    long as [i] is an array index, that is, below [2^32 - 1]. From there on
    the assignment sets a plain property: the length and the elements of the
    array stay as they are, and no loop over the array sees the property. *)
Definition set (a : list value) (i : nat) (v : value) : list value :=
  if i <? length a then <[i := v]> a
  else if (N.of_nat i <? 4294967295)%N
       then a ++ replicate (i - length a) Undefined ++ [v]
       else a.

(** Loose equality [==] on the values that occur: [null == undefined]. *)
Definition loose_eq (x y : value) : bool :=
  match x, y with
  | Str s, Str t => String.eqb s t
  | Str _, _ | _, Str _ => false
  | _, _ => true
  end.

(** [String(v)] as used by [Array.prototype.join]: [null] and [undefined]
    contribute the empty string. *)
Definition join_elem (v : value) : string :=
  match v with
  | Str s => s
  | _ => ""
  end.

(** [a.join('')]. *)
Definition join (a : list value) : string :=
  fold_right (fun v acc => join_elem v ++ acc) "" a.

(** [a.join(sep)]. *)
Fixpoint join_with (sep : string) (a : list value) : string :=
  match a with
  | [] => ""
  | v :: rest =>
      match rest with
      | [] => join_elem v
      | _ => join_elem v ++ sep ++ join_with sep rest
      end
  end.

(** The line feed of a string literal. *)
Definition newline : string := String (ascii_of_nat 10) "".

(** Decimal rendering of a non-negative integer. *)
Definition string_of_nat (n : nat) : string :=
  NilZero.string_of_uint (Nat.to_uint n).

(** An array index as a value: a number, [null] (what [toActionIndex]
    returns when it finds nothing) or [undefined]. *)
Inductive index :=
| Idx (n : nat)
| IdxNull
| IdxUndefined.

Definition string_of_action (x : index) : string :=
  match x with
  | Idx n => string_of_nat n
  | IdxNull => "null"
  | IdxUndefined => "undefined"
  end.

Definition of_option (x : option nat) : index :=
  match x with
  | Some n => Idx n
  | None => IdxNull
  end.

(** The successive results of [Math.random()]. *)
Definition random := nat -> number.

(** [Math.random()]: the next result, and the results that remain. *)
Definition Math_random (r : random) : number * random := (r 0, fun n => r (S n)).

End Js.

Import Js.

(** ** game.js *)

Module TicTacToe.

Record t := mk {
  nll : string;
  state : list value;
  currentPlayer : string;
  stateHistory : list (list value);
  actionHistory : list nat
}.

Definition X : value := Str "X".

Definition O : value := Str "O".

(** [new TicTacToe(nll)] without buttons; the length check of [nll] throws
    [InvalidChar], which no claim below concerns, so the constructor is given
    for the accepted case only. *)
Definition new (nll : string) : t :=
  let st := replicate 9 (Str nll) in
  mk nll st "X" [st] [].

Definition unroll (row col : nat) : nat := row * 3 + col.


(** [toActionArray(index)] with the default placeholder ['A'] and the default
    [empty = null]. *)
Definition toActionArray (index : nat) : list value :=
  Js.set (replicate 9 Null) index (Str "A").

(** [toActionIndex(actionArray)] with [empty = null]: the first index whose
    element is not loosely equal to [null], or [null] ([None]). *)
Fixpoint toActionIndex_from (i : nat) (a : list value) : option nat :=
  match a with
  | [] => None
  | elem :: rest =>
      if negb (loose_eq elem Null) then Some i
      else toActionIndex_from (S i) rest
  end.

Definition toActionIndex (a : list value) : option nat :=
  toActionIndex_from 0 a.

(** [rot90(state, n)].  [n = None] is a call that omits the argument: then
    [n % 4] is [NaN], no branch is taken and the fresh empty array is
    returned.  [%] truncates towards zero ([Z.rem]). *)
Definition rot90 (state : list value) (n : option Z) : list value :=
  match n with
  | None => []
  | Some n =>
      let r := Z.rem n 4 in
      if (r =? 0)%Z then state
      else if (r =? 1)%Z then
        [ get state 6; get state 3; get state 0;
          get state 7; get state 4; get state 1;
          get state 8; get state 5; get state 2 ]
      else if (r =? 2)%Z then
        [ get state 8; get state 7; get state 6;
          get state 5; get state 4; get state 3;
          get state 2; get state 1; get state 0 ]
      else if (r =? 3)%Z then
        [ get state 2; get state 5; get state 8;
          get state 1; get state 4; get state 7;
          get state 0; get state 3; get state 6 ]
      else []
  end.

(** [mirror(state)]: the two nested loops write into [new Array(9)]. *)
Definition mirror (state : list value) : list value :=
  foldl (fun acc i =>
    foldl (fun acc j =>
      Js.set acc (unroll i (2 - j)) (get state (unroll i j)))
      acc (seq 0 3))
    (replicate 9 Undefined) (seq 0 3).

(** The indicator variables of [checkTermination]. *)
Record diag := mkDiag { tlX : bool; trX : bool; tlO : bool; trO : bool; draw : bool }.
Record line := mkLine { rowX : bool; colX : bool; rowO : bool; colO : bool }.

(** [if (c) flag = false]. *)
Definition clear_if (c : bool) (flag : bool) : bool :=
  if c then false else flag.

Definition neq (x y : value) : bool := negb (loose_eq x y).

(** Body of the inner loop over [j], for row/column [i]. *)
Definition inner_body (g : t) (i : nat) (acc : line * bool) (j : nat) : line * bool :=
  let '(l, d) := acc in
  let index := unroll i j in
  let rX := clear_if (neq (get (state g) index) X) (rowX l) in
  let rO := clear_if (neq (get (state g) index) O) (rowO l) in
  let d' := clear_if (loose_eq (get (state g) index) (Str (nll g))) d in
  let index := unroll j i in
  let cX := clear_if (neq (get (state g) index) X) (colX l) in
  let cO := clear_if (neq (get (state g) index) O) (colO l) in
  (mkLine rX cX rO cO, d').

(** Body of the outer loop over [i]: either returns a winner ([inl]) or
    carries the diagonal and draw indicators on ([inr]). *)
Definition outer_body (g : t) (f : diag) (i : nat) : string + diag :=
  let index := unroll i i in
  let tlX' := clear_if (neq (get (state g) index) X) (tlX f) in
  let tlO' := clear_if (neq (get (state g) index) O) (tlO f) in
  let index := unroll i (2 - i) in
  let trX' := clear_if (neq (get (state g) index) X) (trX f) in
  let trO' := clear_if (neq (get (state g) index) O) (trO f) in
  let '(l, d) := foldl (inner_body g i) (mkLine true true true true, draw f) (seq 0 3) in
  if rowX l || colX l then inl "X"
  else if rowO l || colO l then inl "O"
  else inr (mkDiag tlX' trX' tlO' trO' d).

Fixpoint outer_loop (g : t) (f : diag) (rows : list nat) : string + diag :=
  match rows with
  | [] => inr f
  | i :: rest =>
      match outer_body g f i with
      | inl w => inl w
      | inr f' => outer_loop g f' rest
      end
  end.

(** [checkTermination()].  The method declares no parameter: an argument
    supplied by a caller (the [horizon] of rewards.js) is dropped, which the
    unused [horizon] stands for. *)
Definition checkTermination (g : t) (horizon : option nat) : string :=
  match outer_loop g (mkDiag true true true true true) (seq 0 3) with
  | inl w => w
  | inr f =>
      if tlX f || trX f then "X"
      else if tlO f || trO f then "O"
      else if draw f then "draw"
      else ""
  end.

(** Truthiness of a string: only the empty string is falsy. *)
Definition truthy (s : string) : bool := negb (String.eqb s "").

(** [getValidActions()].  As for [checkTermination], the method declares no
    parameter and a [horizon] passed by a caller is dropped. *)
Definition getValidActions (g : t) (horizon : option nat) : list nat :=
  List.filter (fun i => loose_eq (get (state g) i) (Str (nll g))) (seq 0 9).

(** [move(index)] on a game without buttons. The game object is updated in
    place: the result is the game after the call and the error thrown, if
    any. The three checks precede every assignment. *)
Definition move (g : t) (index : Z) : t * option error :=
  if ((index >=? 9)%Z || (index <? 0)%Z)%bool then (g, Some InvalidActionError)
  else if neq (get (state g) (Z.to_nat index)) (Str (nll g)) then (g, Some InvalidActionError)
  else if truthy (checkTermination g None) then (g, Some InvalidActionError)
  else
    let st := Js.set (state g) (Z.to_nat index) (Str (currentPlayer g)) in
    let next := if String.eqb (currentPlayer g) "X" then "O" else "X" in
    (mk (nll g) st next (stateHistory g ++ [st]) (actionHistory g ++ [Z.to_nat index]), None).

(** [reset()]. *)
Definition reset (g : t) : t := new (nll g).

(** [toString()]: the element pushed for a cell, a row of the outer loop, and
    the rows joined. *)
Definition shown (g : t) (index : nat) : value :=
  if loose_eq (get (state g) index) (Str (nll g)) then Str " "
  else get (state g) index.

Definition rowString (g : t) (i : nat) : value :=
  Str (join_with "|" (map (fun j => shown g (unroll i j)) [0; 1; 2]) ++ newline).

Definition toString (g : t) : string :=
  join_with ("-----" ++ newline) (map (rowString g) [0; 1; 2]).

End TicTacToe.

(** ** rewards.js *)

Module Rewards.

(** [terminalOnly(game, player, horizon)]. *)
Definition terminalOnly (game : TicTacToe.t) (player : string) (horizon : option nat) : number :=
  let outcome := TicTacToe.checkTermination game horizon in
  if String.eqb outcome player then 1%Q
  else if (String.eqb outcome "draw" || negb (TicTacToe.truthy outcome))%bool then 0%Q
  else (-1)%Q.

End Rewards.

(** ** agent.js *)

Module Agent.

(** The global object, which [self] names in a browser. Only the property the
    agents' constructors touch is kept. *)
Record global := mkGlobal { self_epsilon : option number }.

(** An agent object: the fields of [Agent], [EpsilonGreedyAgent],
    [MonteCarloAgent] and [QLearningAgent]. A field the constructors never
    assign reads as [undefined], which is [None] for [epsilon]; [alpha] is not
    a field of a [MonteCarloAgent] and is never read there. *)
Record t := mk {
  player : string;
  Q : gmap string number;
  defaultQ : number;
  countQ : gmap string nat;
  epsilon : option number;
  discount : number;
  alpha : number;
  rewards : list number
}.

Definition set_Q (a : t) (q : gmap string number) : t :=
  mk (player a) q (defaultQ a) (countQ a) (epsilon a) (discount a) (alpha a) (rewards a).

Definition set_countQ (a : t) (c : gmap string nat) : t :=
  mk (player a) (Q a) (defaultQ a) c (epsilon a) (discount a) (alpha a) (rewards a).

Definition set_epsilon (a : t) (e : option number) : t :=
  mk (player a) (Q a) (defaultQ a) (countQ a) e (discount a) (alpha a) (rewards a).

Definition set_rewards (a : t) (r : list number) : t :=
  mk (player a) (Q a) (defaultQ a) (countQ a) (epsilon a) (discount a) (alpha a) r.

(** [Agent.constructor]. *)
Definition constructor (player : string) (defaultQ : number) : t :=
  mk player ∅ defaultQ ∅ None 0%Q 0%Q [].

(** [_hash(state, action)]. *)
Definition _hash (state : list value) (action : index) : string :=
  join state ++ string_of_action action.

(** [this.Q.has(key)]. *)
Definition has (a : t) (key : string) : bool :=
  match Q a !! key with
  | Some _ => true
  | None => false
  end.

(** [this.Q.has(key) ? this.Q.get(key) : this.defaultQ]. *)
Definition valueOf (a : t) (key : string) : number :=
  match Q a !! key with
  | Some v => v
  | None => defaultQ a
  end.

(** One of the two [for (let n = 1; n < 4; n++)] loops of [getKey]: the
    first candidate key the table has. *)
Fixpoint first_match (a : t) (candidate : Z -> string) (ns : list Z) : option string :=
  match ns with
  | [] => None
  | n :: rest =>
      let key := candidate n in
      if has a key then Some key else first_match a candidate rest
  end.

(** [toActionArray(action)]: a [null] or [undefined] action assigns a
    non-index property and leaves the nine [null]s. *)
Definition actionArrayOf (action : index) : list value :=
  match action with
  | Idx i => TicTacToe.toActionArray i
  | _ => replicate 9 Null
  end.

(** Body of the first loop of [getKey]: the key of the state and of the
    action marker, both rotated by [n]. *)
Definition rotatedKey (state actionArray : list value) (n : Z) : string :=
  let rotArray := TicTacToe.rot90 actionArray (Some n) in
  let index := TicTacToe.toActionIndex rotArray in
  let newState := TicTacToe.rot90 state (Some n) in
  _hash newState (of_option index).

(** Body of the second loop of [getKey]: the marker is rotated by [n], the
    state by [rot90(mirrorState)], a call with one argument. *)
Definition mirroredKey (mirrorState mirrorActionArray : list value) (n : Z) : string :=
  let rotArray := TicTacToe.rot90 mirrorActionArray (Some n) in
  let index := TicTacToe.toActionIndex rotArray in
  let newState := TicTacToe.rot90 mirrorState None in
  _hash newState (of_option index).

(** [getKey(state, action)]. *)
Definition getKey (a : t) (state : list value) (action : index) : string :=
  let actionArray := actionArrayOf action in
  match first_match a (rotatedKey state actionArray) [1; 2; 3]%Z with
  | Some key => key
  | None =>
      let mirrorActionArray := TicTacToe.mirror actionArray in
      let mirrorState := TicTacToe.mirror state in
      match first_match a (mirroredKey mirrorState mirrorActionArray) [1; 2; 3]%Z with
      | Some key => key
      | None => _hash state action
      end
  end.

End Agent.

(** [randomChoice(arr)], given the result [u] of [Math.random()]. *)
Definition randomChoice (arr : list nat) (u : number) : index :=
  match arr !! Z.to_nat (Qfloor (u * inject_Z (Z.of_nat (length arr)))) with
  | Some x => Idx x
  | None => IdxUndefined
  end.

(** *** EpsilonGreedyAgent *)

Module EpsilonGreedyAgent.

(** [EpsilonGreedyAgent.constructor]: [self.epsilon = epsilon] writes to the
    global object; the agent under construction is [this]. *)
Definition constructor (w : Agent.global) (player : string)
    (epsilon defaultQ : number) : Agent.global * Agent.t :=
  (Agent.mkGlobal (Some epsilon), Agent.constructor player defaultQ).

Definition tolerance : number := (1 # 10000)%Q.

(** Body of the loop over [keys.entries()]: [maxVal] is [None] while it is
    [-Infinity], for which the band test fails and [val > maxVal] holds. *)
Definition best_body (a : Agent.t) (acc : option number * list nat) (entry : nat * string)
    : option number * list nat :=
  let '(maxVal, bestActions) := acc in
  let '(action, key) := entry in
  let val := Agent.valueOf a key in
  match maxVal with
  | None => (Some val, [action])
  | Some m =>
      if (Qltb (m - tolerance) val && Qltb val (m + tolerance))%bool then
        (maxVal, (bestActions ++ [action])%list)
      else if Qltb m val then (Some val, [action])
      else acc
  end.

(** The greedy branch of [policy]: the array [bestActions]. *)
Definition bestActions (a : Agent.t) (state : list value) (validActions : list nat) : list nat :=
  let keys := map (fun action => Agent.getKey a state (Idx action)) validActions in
  snd (foldl (best_body a) (None, []) (zip validActions keys)).

(** [Math.random() < this.epsilon]; false when [epsilon] is [undefined]. *)
Definition explores (a : Agent.t) (u : number) : bool :=
  match Agent.epsilon a with
  | Some e => Qltb u e
  | None => false
  end.

(** The state [policy] works on: the live state, or [stateHistory[horizon]],
    which is [undefined] ([None]) outside the history. *)
Definition stateAt (game : TicTacToe.t) (horizon : option nat) : option (list value) :=
  match horizon with
  | None => Some (TicTacToe.state game)
  | Some h => TicTacToe.stateHistory game !! h
  end.

(** [EpsilonGreedyAgent.policy(game, horizon)]. *)
Definition policy (a : Agent.t) (game : TicTacToe.t) (horizon : option nat) (r : random)
    : result (index * random) :=
  if (bool_decide (horizon = None)
      && negb (String.eqb (Agent.player a) (TicTacToe.currentPlayer game)))%bool
  then Throw MisalignedPlayerError
  else
    let state := stateAt game horizon in
    let validActions := TicTacToe.getValidActions game horizon in
    if (length validActions =? 0)%nat then Throw InvalidActionError
    else
      let '(u, r) := Math_random r in
      if explores a u then
        let '(u, r) := Math_random r in
        Ok (randomChoice validActions u, r)
      else
        match state with
        | None => Throw TypeError
        | Some state =>
            let best := bestActions a state validActions in
            if (0 <? length best)%nat then
              let '(u, r) := Math_random r in
              Ok (randomChoice best u, r)
            else Ok (IdxNull, r)
        end.

End EpsilonGreedyAgent.

(** *** The loops of the learners *)

(** The values of [i] in [for (let i = start; i < end; i += 2)]. *)
Fixpoint range2 (n : nat) (start : nat) : list nat :=
  match n with
  | 0 => []
  | S n' => start :: range2 n' (start + 2)
  end.

Definition upward (start : nat) (end_ : Z) : list nat :=
  range2 (Z.to_nat ((end_ - Z.of_nat start + 1) / 2)) start.

(** The values of [i] in [for (let i = from; i >= 0; i -= 2)]. *)
Definition downward (from : Z) : list nat :=
  map (fun k => Z.to_nat (from - 2 * Z.of_nat k)) (seq 0 (Z.to_nat ((from + 2) / 2))).

(** [a[i]] for an array of action indices. *)
Definition actionAt (l : list nat) (i : nat) : index :=
  match l !! i with
  | Some x => Idx x
  | None => IdxUndefined
  end.

(** The condition that [playerChoice] made the last move. *)
Definition movedLast (who : string) (game : TicTacToe.t) : bool :=
  let len := length (TicTacToe.stateHistory game) in
  ((String.eqb who "X" && (len mod 2 =? 0)%nat) ||
   (String.eqb who "O" && negb (len mod 2 =? 0)%nat))%bool.

Definition rewardFunction := TicTacToe.t -> string -> option nat -> number.

(** *** MonteCarloAgent *)

Module MonteCarloAgent.

(** [MonteCarloAgent.constructor]. *)
Definition constructor (w : Agent.global) (player : string)
    (epsilon discount defaultQ : number) : Agent.global * Agent.t :=
  let '(w', a) := EpsilonGreedyAgent.constructor w player epsilon defaultQ in
  (w', Agent.mk (Agent.player a) (Agent.Q a) (Agent.defaultQ a) (Agent.countQ a)
          (Agent.epsilon a) discount (Agent.alpha a) []).

(** The incremental-mean assignment of [learn]:
    [Q.set(key, q * n / (n + 1) + totalReward / (n + 1))] and
    [countQ.set(key, n + 1)]. *)
Definition average (a : Agent.t) (key : string) (totalReward : number) : Agent.t :=
  let q := Agent.valueOf a key in
  let n := match Agent.countQ a !! key with Some n => n | None => 0 end in
  let n1 := inject_Z (Z.of_nat (n + 1)) in
  let a := Agent.set_Q a
    (<[key := (q * inject_Z (Z.of_nat n) / n1 + totalReward / n1)%Q]> (Agent.Q a)) in
  Agent.set_countQ a (<[key := n + 1]> (Agent.countQ a)).

(** The agent while it learns. The numbers of the tables are exact, and one
    value of the program is outside them: once the index [j] of [learn] has
    run below zero, [rewards[j]] is [undefined], the return is [NaN], and so
    is every mean computed from it or from a mean that is [NaN] already.
    Nothing is thrown: the key is set in both maps as for any mean. [nan]
    says which keys of [Q] hold [NaN]; the number [Q] keeps for such a key
    stands for nothing. *)
Record learner := mkLearner { agent : Agent.t; nan : gset string }.

(** [this.rewards = r]. *)
Definition with_rewards (l : learner) (r : list number) : learner :=
  mkLearner (Agent.set_rewards (agent l) r) (nan l).

(** [this.rewards[j]]: [undefined] ([None]) outside the array. *)
Definition rewardAt (a : Agent.t) (j : Z) : option number :=
  if (j <? 0)%Z then None else Agent.rewards a !! Z.to_nat j.

(** [this.Q.has(key) ? this.Q.get(key) : this.defaultQ]: a number, or [NaN]
    ([None]). *)
Definition storedValue (l : learner) (key : string) : option number :=
  if (Agent.has (agent l) key && bool_decide (key ∈ nan l))%bool then None
  else Some (Agent.valueOf (agent l) key).

(** [this.rewards[j] + this.discount * totalReward]: [NaN] when the reward is
    [undefined] or the total is [NaN] already. *)
Definition accumulate (a : Agent.t) (j : Z) (totalReward : option number) : option number :=
  match rewardAt a j, totalReward with
  | Some rj, Some t => Some (rj + Agent.discount a * t)%Q
  | _, _ => None
  end.

(** The two assignments of the loop body,
    [Q.set(key, q * n / (n + 1) + totalReward / (n + 1))] and
    [countQ.set(key, n + 1)]. They are [average] when [q] and [totalReward]
    are numbers. When one of them is [NaN] the mean is [NaN]: the key is set
    and counted all the same, and [nan] records it. *)
Definition assign (l : learner) (key : string) (totalReward : option number) : learner :=
  match storedValue l key, totalReward with
  | Some _, Some t => mkLearner (average (agent l) key t) (nan l ∖ {[key]})
  | _, _ => mkLearner (average (agent l) key 0%Q) ({[key]} ∪ nan l)
  end.

(** The backward loop of [learn]; [j] indexes [rewards] and may run below
    zero. The only throw is the engine's, in [getKey] on a snapshot that
    does not exist. *)
Fixpoint backward (game : TicTacToe.t) (l : learner) (totalReward : option number) (j : Z)
    (steps : list nat) : learner * option error :=
  match steps with
  | [] => (l, None)
  | i :: rest =>
      match TicTacToe.stateHistory game !! i with
      | None => (l, Some TypeError)
      | Some s =>
          let key := Agent.getKey (agent l) s (actionAt (TicTacToe.actionHistory game) i) in
          let totalReward := accumulate (agent l) j totalReward in
          backward game (assign l key totalReward) totalReward (j - 1) rest
      end
  end.

(** [MonteCarloAgent.learn(game, rewardFunc)]. *)
Definition learn (l : learner) (game : TicTacToe.t) (rewardFunc : rewardFunction)
    : learner * option error :=
  let len := length (TicTacToe.stateHistory game) in
  let reward := rewardFunc game (TicTacToe.currentPlayer game) (Some len) in
  let l := with_rewards l (Agent.rewards (agent l) ++ [reward])%list in
  let outcome := TicTacToe.checkTermination game None in
  if TicTacToe.truthy outcome then
    let end_ := if movedLast (Agent.player (agent l)) game
                then (Z.of_nat len - 1)%Z else (Z.of_nat len - 2)%Z in
    let j := (Z.of_nat (length (Agent.rewards (agent l))) - 1)%Z in
    match backward game l (Some 0%Q) j (downward (end_ - 1)) with
    | (l, None) => (with_rewards l [], None)
    | (l, Some e) => (l, Some e)
    end
  else (l, None).

End MonteCarloAgent.

(** *** QLearningAgent *)

Module QLearningAgent.

(** [QLearningAgent.constructor]. *)
Definition constructor (w : Agent.global) (player : string)
    (epsilon discount alpha defaultQ : number) : Agent.global * Agent.t :=
  let '(w', a) := EpsilonGreedyAgent.constructor w player epsilon defaultQ in
  (w', Agent.mk (Agent.player a) (Agent.Q a) (Agent.defaultQ a) (Agent.countQ a)
          (Agent.epsilon a) discount alpha (Agent.rewards a)).

(** The loop of [updateQ] over the intermediate plies. *)
Fixpoint intermediate (game : TicTacToe.t) (playerChoice : string)
    (rewardFunc : rewardFunction) (a : Agent.t) (r : random) (steps : list nat)
    : Agent.t * random * option error :=
  match steps with
  | [] => (a, r, None)
  | i :: rest =>
      let reward := rewardFunc game playerChoice (Some (i + 2)) in
      match TicTacToe.stateHistory game !! i with
      | None => (a, r, Some TypeError)
      | Some s =>
          let oldKey := Agent.getKey a s (actionAt (TicTacToe.actionHistory game) i) in
          let oldQ := Agent.valueOf a oldKey in
          match EpsilonGreedyAgent.policy a game (Some (i + 2)) r with
          | Throw e => (a, r, Some e)
          | Ok (futureAction, r) =>
              match TicTacToe.stateHistory game !! (i + 2) with
              | None => (a, r, Some TypeError)
              | Some s2 =>
                  let futureKey := Agent.getKey a s2 futureAction in
                  let futureQ := Agent.valueOf a futureKey in
                  let a := Agent.set_Q a (<[oldKey :=
                    (oldQ + Agent.alpha a * (reward + Agent.discount a * futureQ - oldQ))%Q]> (Agent.Q a)) in
                  intermediate game playerChoice rewardFunc a r rest
              end
          end
      end
  end.

(** [QLearningAgent.updateQ(game, playerChoice, rewardFunc)]. *)
Definition updateQ (a : Agent.t) (game : TicTacToe.t) (playerChoice : string)
    (rewardFunc : rewardFunction) (r : random) : Agent.t * random * option error :=
  let start := if String.eqb playerChoice "X" then 0 else 1 in
  let len := Z.of_nat (length (TicTacToe.stateHistory game)) in
  let end_ := if movedLast playerChoice game then (len - 2)%Z else (len - 3)%Z in
  match intermediate game playerChoice rewardFunc a r (upward start end_) with
  | (a, r, Some e) => (a, r, Some e)
  | (a, r, None) =>
      let terminalReward := rewardFunc game playerChoice None in
      match (if (end_ <? 0)%Z then None else TicTacToe.stateHistory game !! Z.to_nat end_) with
      | None => (a, r, Some TypeError)
      | Some s =>
          let terminalKey := Agent.getKey a s (actionAt (TicTacToe.actionHistory game) (Z.to_nat end_)) in
          let terminalQ := Agent.valueOf a terminalKey in
          (Agent.set_Q a (<[terminalKey :=
             (terminalQ + Agent.alpha a * (terminalReward - terminalQ))%Q]> (Agent.Q a)), r, None)
      end
  end.

(** [QLearningAgent.learn(game, rewardFunc)]. An exception leaves the agent
    as it is at the throw, with [epsilon] still [-1]. *)
Definition learn (a : Agent.t) (game : TicTacToe.t) (rewardFunc : rewardFunction) (r : random)
    : Agent.t * random * option error :=
  let outcome := TicTacToe.checkTermination game None in
  if TicTacToe.truthy outcome then
    let storeEpsilon := Agent.epsilon a in
    let a := Agent.set_epsilon a (Some (-1)%Q) in
    match updateQ a game "X" rewardFunc r with
    | (a, r, Some e) => (a, r, Some e)
    | (a, r, None) =>
        match updateQ a game "O" rewardFunc r with
        | (a, r, Some e) => (a, r, Some e)
        | (a, r, None) => (Agent.set_epsilon a storeEpsilon, r, None)
        end
    end
  else (a, r, None).

End QLearningAgent.

(** *** RandomAgent *)

Module RandomAgent.

(** [RandomAgent.policy(game, horizon)]. *)
Definition policy (a : Agent.t) (game : TicTacToe.t) (horizon : option nat) (r : random)
    : result (index * random) :=
  if (bool_decide (horizon = None)
      && negb (String.eqb (Agent.player a) (TicTacToe.currentPlayer game)))%bool
  then Throw MisalignedPlayerError
  else
    let validActions := TicTacToe.getValidActions game horizon in
    if (length validActions =? 0)%nat then Throw InvalidActionError
    else
      let '(u, r) := Math_random r in
      Ok (randomChoice validActions u, r).

(** [RandomAgent.learn(game, rewardFunc)]: the agent does not learn. *)
Definition learn (a : Agent.t) (game : TicTacToe.t) (rewardFunc : rewardFunction) : Agent.t :=
  a.

End RandomAgent.

(** ** Notions used to state the properties *)

(** The game reached from a fresh board by a sequence of moves; a move that
    throws leaves the game as it is. *)
Definition play (moves : list Z) : TicTacToe.t :=
  foldl (fun g m => fst (TicTacToe.move g m)) (TicTacToe.new "_") moves.

(** A board of nine cells. *)
Definition board (cells : string) : list value :=
  map (fun c => Str (String c "")) (list_ascii_of_string cells).

(** The indices below nine of the cells of [s] that hold the empty marker. *)
Definition isEmptyCell (nll : string) (s : list value) (i : nat) : Prop :=
  i < 9 /\ get s i = Str nll.

(** The three-cell lines of the board. *)
Definition lines : list (nat * nat * nat) :=
  [ (0, 1, 2); (3, 4, 5); (6, 7, 8);
    (0, 3, 6); (1, 4, 7); (2, 5, 8);
    (0, 4, 8); (2, 4, 6) ].

(** Cell [i] of [s] holds the one-character string [t]. *)
Definition isToken (s : list value) (t : string) (i : nat) : bool :=
  loose_eq (get s i) (Str t).

(** The three cells of a line all hold [t]. *)
Definition ownsb (s : list value) (t : string) (l : nat * nat * nat) : bool :=
  let '(a, b, c) := l in (isToken s t a && isToken s t b && isToken s t c)%bool.

Definition owns (s : list value) (t : string) (l : nat * nat * nat) : Prop :=
  let '(a, b, c) := l in get s a = Str t /\ get s b = Str t /\ get s c = Str t.

(** Some line is fully owned by [t]. *)
Definition wonb (s : list value) (t : string) : bool := existsb (ownsb s t) lines.

Definition won (s : list value) (t : string) : Prop :=
  exists l, In l lines /\ owns s t l.

(** No cell holds the empty marker. *)
Definition fullb (nll : string) (s : list value) : bool :=
  forallb (fun i => negb (isToken s nll i)) (seq 0 9).

Definition full (nll : string) (s : list value) : Prop :=
  forall i, i < 9 -> get s i <> Str nll.

(** Exactly one of the eight lines is fully owned by a token, and it is
    owned by [t]. *)
Definition exactlyOneLine (s : list value) (t : string) : Prop :=
  exists l, In l lines /\ owns s t l /\
    forall l' t', (t' = "X" \/ t' = "O") -> In l' lines -> owns s t' l' -> l' = l.

(** Row [i] and column [i], the two lines one pass of the outer loop tests. *)
Definition row (i : nat) : nat * nat * nat := (3 * i, 3 * i + 1, 3 * i + 2).

Definition col (i : nat) : nat * nat * nat := (i, i + 3, i + 6).

(** The key of a symmetry variant of [(state, action)]: an optional mirror
    followed by [k] quarter turns, applied to the board and to the one-hot
    marker of the action. *)
Definition variantKey (state : list value) (action : nat) (mirrored : bool) (k : Z) : string :=
  let marker := TicTacToe.toActionArray action in
  let s := if mirrored then TicTacToe.mirror state else state in
  let m := if mirrored then TicTacToe.mirror marker else marker in
  Agent._hash (TicTacToe.rot90 s (Some k))
    (of_option (TicTacToe.toActionIndex (TicTacToe.rot90 m (Some k)))).

Definition turns : list Z := [0; 1; 2; 3]%Z.

(** The table holds the key of the variant [(mirrored, k)] and the key of no
    other variant. *)
Definition soleRepresentative (a : Agent.t) (state : list value) (action : nat)
    (mirrored : bool) (k : Z) : Prop :=
  Agent.has a (variantKey state action mirrored k) = true
  /\ forall mirrored' k', In k' turns ->
       Agent.has a (variantKey state action mirrored' k') = true ->
       variantKey state action mirrored' k' = variantKey state action mirrored k.

(** The canonicalizer property for one pre-populated variant. *)
Definition returnsRepresentative (a : Agent.t) (state : list value) (action : nat)
    (mirrored : bool) (k : Z) : Prop :=
  soleRepresentative a state action mirrored k ->
  Agent.getKey a state (Idx action) = variantKey state action mirrored k.

(** A board of nine cells of one character each. *)
Definition wellFormed (s : list value) : Prop :=
  length s = 9 /\ Forall (fun c => exists ch, c = Str (String ch "")) s.

(** Every key of the table has the ten characters of a hashed board: nine
    cells and the digit of the action. *)
Definition keysHashed (a : Agent.t) : Prop :=
  forall key, Agent.has a key = true -> String.length key = 10.

(** An agent whose table holds the single entry [key := v]. *)
Definition agentWith (key : string) (v : number) : Agent.t :=
  Agent.set_Q (Agent.constructor "O" 0%Q) {[ key := v ]}.

(** The table after the incremental-mean assignment has been applied for a
    sequence of keys and returns, in order. *)
Definition applyReturns (a : Agent.t) (us : list (string * number)) : Agent.t :=
  foldl (fun a u => MonteCarloAgent.average a (fst u) (snd u)) a us.

(** The returns applied to [key], in order of arrival. *)
Definition returnsFor (key : string) (us : list (string * number)) : list number :=
  map snd (List.filter (fun u => String.eqb (fst u) key) us).

Definition total (gs : list number) : number := fold_right Qplus 0%Q gs.

Definition mean (gs : list number) : number :=
  (total gs / inject_Z (Z.of_nat (length gs)))%Q.

(** The visit count of [key], zero when there is no entry. *)
Definition visits (a : Agent.t) (key : string) : nat :=
  match Agent.countQ a !! key with Some n => n | None => 0 end.

(** Every result of [Math.random()] lies in [0, 1). *)
Definition unitInterval (r : random) : Prop := forall n, (0 <= r n < 1)%Q.

(** The policy can return action [x]: it does for some results of
    [Math.random()]. *)
Definition canReturn (a : Agent.t) (game : TicTacToe.t) (horizon : option nat) (x : nat) : Prop :=
  exists r r', unitInterval r /\ EpsilonGreedyAgent.policy a game horizon r = Ok (Idx x, r').

(** The canonical-key value of an action: the stored value of its key, or
    the agent's default. *)
Definition actionValue (a : Agent.t) (state : list value) (x : nat) : number :=
  Agent.valueOf a (Agent.getKey a state (Idx x)).

(** A legal action whose value is within the tolerance of the maximum over
    the legal actions. *)
Definition nearMax (a : Agent.t) (state : list value) (legal : list nat) (x : nat) : Prop :=
  In x legal /\
  forall y, In y legal -> (actionValue a state y - EpsilonGreedyAgent.tolerance < actionValue a state x)%Q.

(** The exploring branch is never taken: [epsilon] is [undefined] or not
    positive. *)
Definition greedy (a : Agent.t) : Prop :=
  forall e, Agent.epsilon a = Some e -> (e <= 0)%Q.

(** The actions the policy can return on the live state are the legal
    actions within the tolerance of the maximum. *)
Definition tieSetIsNearMax (a : Agent.t) (game : TicTacToe.t) : Prop :=
  forall x, canReturn a game None x <->
            nearMax a (TicTacToe.state game) (TicTacToe.getValidActions game None) x.

(** An agent playing X, never exploring, with the value 0.00009 for an edge
    cell of the empty board and 0.00018 for its centre. *)
Definition nearTies : Agent.t :=
  Agent.mk "X" (<["_________1" := (9 # 100000)%Q]> {["_________4" := (18 # 100000)%Q]})
    0%Q ∅ (Some 0%Q) 1%Q 0%Q [].

(** What the single pass maintains, for the actions [seen] so far. *)
Definition tieInvariant (v : nat -> number) (seen : list nat)
    (acc : option number * list nat) : Prop :=
  match acc with
  | (None, best) => seen = [] /\ best = []
  | (Some m, best) =>
      (exists x, In x seen /\ v x = m)
      /\ (forall x, In x best -> In x seen /\ (m - EpsilonGreedyAgent.tolerance < v x)%Q)
      /\ (forall y, In y seen -> (v y < m + EpsilonGreedyAgent.tolerance)%Q)
      /\ (forall y, In y seen -> (m <= v y)%Q -> In y best)
  end.

(** A Q-learning agent as its constructor returns it, playing O with
    learning rate 1/2, discount 1 and default value 0. *)
Definition qAgent : Agent.t :=
  snd (QLearningAgent.constructor (Agent.mkGlobal None) "O" (1 # 10)%Q 1%Q (1 # 2)%Q 0%Q).

(** The same agent after it has learnt the value 1 for X's move to cell 1 on
    the board X__/O__/___. *)
Definition primed : Agent.t := Agent.set_Q qAgent {[ "X__O_____1" := 1%Q ]}.

(** A drawn game of nine plies, and a game X wins along the top row at the
    fifth ply. *)
Definition drawGame : TicTacToe.t := play [0; 1; 2; 4; 3; 5; 7; 6; 8]%Z.

Definition winGame : TicTacToe.t := play [0; 3; 1; 4; 2]%Z.

(** The one-step update of an intermediate ply. *)
Definition tdUpdate (q alpha reward discount future : number) : number :=
  (q + alpha * (reward + discount * future - q))%Q.

(** The game after a sequence of calls of [move], from any game. *)
Definition playFrom (g : TicTacToe.t) (moves : list Z) : TicTacToe.t :=
  foldl (fun g m => fst (TicTacToe.move g m)) g moves.

(** The same game object with another board. *)
Definition withState (g : TicTacToe.t) (s : list value) : TicTacToe.t :=
  TicTacToe.mk (TicTacToe.nll g) s (TicTacToe.currentPlayer g)
    (TicTacToe.stateHistory g) (TicTacToe.actionHistory g).

(** One of the eight symmetric images of a board. *)
Definition variantState (s : list value) (mirrored : bool) (k : Z) : list value :=
  TicTacToe.rot90 (if mirrored then TicTacToe.mirror s else s) (Some k).

(** The eight images of a board under the transforms of the canonicalizer:
    the four turns of the board and the four turns of its mirror image. *)
Definition images (s : list value) : list (list value) :=
  (map (variantState s false) turns ++ map (variantState s true) turns)%list.

(** Every cell is empty or holds a token. *)
Definition cellsOf (nll : string) (s : list value) : Prop :=
  length s = 9 /\ Forall (fun c => c = Str nll \/ c = Str "X" \/ c = Str "O") s.

(** What every game keeps from its construction on. *)
Definition gameInv (g : TicTacToe.t) : Prop :=
  cellsOf (TicTacToe.nll g) (TicTacToe.state g)
  /\ Forall (cellsOf (TicTacToe.nll g)) (TicTacToe.stateHistory g)
  /\ Forall (fun i => i < 9) (TicTacToe.actionHistory g)
  /\ length (TicTacToe.stateHistory g) = S (length (TicTacToe.actionHistory g))
  /\ last (TicTacToe.stateHistory g) = Some (TicTacToe.state g)
  /\ TicTacToe.currentPlayer g
     = (if Nat.even (length (TicTacToe.actionHistory g)) then "X" else "O").

(** The number of cells of [s] that hold [t]. *)
Definition countToken (s : list value) (t : string) : nat :=
  length (List.filter (fun c => loose_eq c (Str t)) s).

(** The tokens do not both own a line. *)
Definition oneWinner (s : list value) : Prop := ~ (won s "X" /\ won s "O").

(** The counts of tokens against the number of plies. *)
Definition countInv (g : TicTacToe.t) : Prop :=
  let k := length (TicTacToe.actionHistory g) in
  countToken (TicTacToe.state g) "X" + countToken (TicTacToe.state g) "O" = k
  /\ countToken (TicTacToe.state g) "X"
     = countToken (TicTacToe.state g) "O" + (if Nat.even k then 0 else 1)
  /\ countToken (TicTacToe.state g) (TicTacToe.nll g) + k = 9.

(** The policy is called in turn: on a past state, or on the live state by
    the player whose turn it is. *)
Definition inTurn (a : Agent.t) (game : TicTacToe.t) (horizon : option nat) : Prop :=
  horizon = None -> Agent.player a = TicTacToe.currentPlayer game.

(** The random agent can return action [x]. *)
Definition canReturnRandom (a : Agent.t) (game : TicTacToe.t) (horizon : option nat)
    (x : nat) : Prop :=
  exists r r', unitInterval r /\ RandomAgent.policy a game horizon r = Ok (Idx x, r').

(** [a'] differs from [a] in its table [Q] only, and the table has lost no
    key. *)
Definition sameButQ (a a' : Agent.t) : Prop :=
  Agent.player a' = Agent.player a
  /\ Agent.defaultQ a' = Agent.defaultQ a
  /\ Agent.countQ a' = Agent.countQ a
  /\ Agent.epsilon a' = Agent.epsilon a
  /\ Agent.discount a' = Agent.discount a
  /\ Agent.alpha a' = Agent.alpha a
  /\ Agent.rewards a' = Agent.rewards a
  /\ forall key, Agent.has a key = true -> Agent.has a' key = true.

(** [a'] has the hyperparameters of [a], and its tables have lost no key and
    no visit. *)
Definition grownFrom (a a' : Agent.t) : Prop :=
  Agent.player a' = Agent.player a
  /\ Agent.defaultQ a' = Agent.defaultQ a
  /\ Agent.epsilon a' = Agent.epsilon a
  /\ Agent.discount a' = Agent.discount a
  /\ Agent.alpha a' = Agent.alpha a
  /\ (forall key, Agent.has a key = true -> Agent.has a' key = true)
  /\ (forall key, visits a key <= visits a' key).

(** Every key with a visit count has a value, and no stored count is zero. *)
Definition countedKeysValued (a : Agent.t) : Prop :=
  forall key n, Agent.countQ a !! key = Some n -> Agent.has a key = true /\ 1 <= n.

(** The histories of a game as the learners need them: snapshots of nine
    one-character cells, actions below nine, one snapshot more than
    actions. *)
Definition historyWellFormed (g : TicTacToe.t) : Prop :=
  Forall wellFormed (TicTacToe.stateHistory g)
  /\ Forall (fun i => i < 9) (TicTacToe.actionHistory g)
  /\ length (TicTacToe.stateHistory g) = S (length (TicTacToe.actionHistory g)).

(** The discounted sum [r0 + gamma r1 + gamma^2 r2 + ...] of a list of
    rewards, the weight [w] of the next reward being carried along. *)
Fixpoint weighted (gamma w : number) (rs : list number) : number :=
  match rs with
  | [] => 0%Q
  | r :: rs => (w * r + weighted gamma (w * gamma) rs)%Q
  end.

Definition discountedSum (gamma : number) (rs : list number) : number :=
  weighted gamma 1%Q rs.

(** The same sum from the last reward backwards, started from [init]. *)
Definition horner (gamma init : number) (rs : list number) : number :=
  fold_right (fun r acc => (r + gamma * acc)%Q) init rs.

(** A learner none of whose numbers is [NaN]. *)
Definition numeric (a : Agent.t) : MonteCarloAgent.learner :=
  MonteCarloAgent.mkLearner a ∅.

(** The learner after the assignments of the loop of [learn] have been
    applied for a sequence of keys and returns, a return being a number or
    [NaN] ([None]). *)
Definition applyAssignments (l : MonteCarloAgent.learner)
    (us : list (string * option number)) : MonteCarloAgent.learner :=
  foldl (fun l u => MonteCarloAgent.assign l (fst u) (snd u)) l us.

(** The successive values of [totalReward] in [n] rounds of the loop of
    [learn], from the total [t] and the reward index [j]. *)
Fixpoint totals (a : Agent.t) (t : option number) (j : Z) (n : nat)
    : list (option number) :=
  match n with
  | 0 => []
  | S n =>
      let t := MonteCarloAgent.accumulate a j t in
      t :: totals a t (j - 1) n
  end.

(** Every step of a loop indexes a snapshot of the game. *)
Definition stepsInHistory (game : TicTacToe.t) (steps : list nat) : Prop :=
  Forall (fun i => i < length (TicTacToe.stateHistory game)) steps.

(** A Monte-Carlo agent playing X with discount 1/2 and three recorded
    rewards, and one with discount 1 after two calls of [learn] in a game. *)
Definition mcAgent : Agent.t :=
  Agent.mk "X" ∅ 0%Q ∅ None (1 # 2)%Q 0%Q [0%Q; 0%Q; 1%Q].


(** The character [toString] shows for a cell holding the character [c]. *)
Definition shownChar (nll : string) (c : ascii) : ascii :=
  if String.eqb (String c "") nll then " "%char else c.

(** ** Properties *)

Section Examples.

Example checkTermination_row :
  TicTacToe.checkTermination
    (TicTacToe.mk "_" (board "XXX_OO___") "O" [] []) None = "X".
Proof. reflexivity. Qed.

Example getKey_fresh :
  Agent.getKey (Agent.constructor "O" 0%Q) (board "X___O____") (Idx 6) = "X___O____6".
Proof. reflexivity. Qed.

Example mirror_letters :
  TicTacToe.mirror (board "abcdefghi") = board "cbafedihg".
Proof. reflexivity. Qed.

End Examples.

(** *** The symmetries of the board *)

Section Symmetry.

Import TicTacToe.

Lemma nine_cells (s : list value) :
  length s = 9 ->
  exists c0 c1 c2 c3 c4 c5 c6 c7 c8, s = [c0; c1; c2; c3; c4; c5; c6; c7; c8].
Proof.
  intros H.
  do 9 (destruct s as [|? s]; [discriminate H|]).
  destruct s; [|discriminate H].
  by do 9 eexists.
Qed.

Lemma rot90_multiple_of_4 (s : list value) (n : Z) :
  (n mod 4 = 0)%Z -> rot90 s (Some n) = s.
Proof.
  intros H. unfold rot90.
  assert (Z.rem n 4 = 0)%Z as ->; [|done].
  apply Z.rem_divide; [lia|]. apply Z.mod_divide; [lia|done].
Qed.

Lemma images_nine (c0 c1 c2 c3 c4 c5 c6 c7 c8 : value) :
  images [c0; c1; c2; c3; c4; c5; c6; c7; c8]
  = [ [c0; c1; c2; c3; c4; c5; c6; c7; c8]; [c6; c3; c0; c7; c4; c1; c8; c5; c2];
      [c8; c7; c6; c5; c4; c3; c2; c1; c0]; [c2; c5; c8; c1; c4; c7; c0; c3; c6];
      [c2; c1; c0; c5; c4; c3; c8; c7; c6]; [c8; c5; c2; c7; c4; c1; c6; c3; c0];
      [c6; c7; c8; c3; c4; c5; c0; c1; c2]; [c0; c3; c6; c1; c4; c7; c2; c5; c8] ].
Proof. reflexivity. Qed.

(** The cells of a board without repetition differ pairwise. *)
Ltac distinct_cells H :=
  repeat (apply NoDup_cons in H as [? H]);
  repeat match goal with
         | Hn : _ ∉ _ :: _ |- _ => apply not_elem_of_cons in Hn as [? Hn]
         end.

(** C10: on a nine-element array a quarter turn applied four times is the
    identity, [rot90(s, n)] returns [s] whenever [n] is a multiple of four,
    and the mirror is an involution; the half and three-quarter turns are the
    quarter turn iterated and the mirror conjugates the quarter turn to its
    inverse. The eight images of the board, its four turns and the four
    turns of its mirror image, contain the board and are closed under the
    quarter turn and the mirror. On a board whose nine cells differ, the
    rotation has order exactly four ([rot90(s, n)] is [s] only for a
    multiple of four), the mirror moves the board, and the eight images are
    pairwise different: the transforms generate the eight symmetries of the
    square. *)
Theorem rot90_order_four_mirror_involution (s : list value) (H : length s = 9) :
  rot90 (rot90 (rot90 (rot90 s (Some 1%Z)) (Some 1%Z)) (Some 1%Z)) (Some 1%Z) = s
  /\ (forall n : Z, (n mod 4 = 0)%Z -> rot90 s (Some n) = s)
  /\ mirror (mirror s) = s
  /\ rot90 s (Some 2%Z) = rot90 (rot90 s (Some 1%Z)) (Some 1%Z)
  /\ rot90 s (Some 3%Z) = rot90 (rot90 (rot90 s (Some 1%Z)) (Some 1%Z)) (Some 1%Z)
  /\ mirror (rot90 s (Some 1%Z)) = rot90 (mirror s) (Some 3%Z)
  /\ In s (images s)
  /\ (forall v, In v (images s) ->
        In (rot90 v (Some 1%Z)) (images s) /\ In (mirror v) (images s))
  /\ (NoDup s ->
        (forall n : Z, rot90 s (Some n) = s <-> (n mod 4 = 0)%Z)
        /\ mirror s <> s
        /\ NoDup (images s)).
Proof.
  destruct (nine_cells s H) as (c0 & c1 & c2 & c3 & c4 & c5 & c6 & c7 & c8 & ->).
  do 6 (split; [first [reflexivity | intros n Hn; by apply rot90_multiple_of_4]|]).
  rewrite images_nine.
  split; [simpl; tauto|].
  split.
  { intros v Hv. simpl in Hv.
    destruct Hv as [<- | [<- | [<- | [<- | [<- | [<- | [<- | [<- | []]]]]]]]];
      split; simpl; tauto. }
  intros Hdup. distinct_cells Hdup.
  split; [|split].
  - intros n. split; [|apply rot90_multiple_of_4].
    unfold rot90. intros Hrot.
    destruct (Z.rem n 4 =? 0)%Z eqn:Hzero.
    { apply Z.eqb_eq in Hzero. apply Z.rem_divide in Hzero; [|lia].
      apply Z.mod_divide; [lia|done]. }
    exfalso.
    destruct (Z.rem n 4 =? 1)%Z; [cbv in Hrot; congruence|].
    destruct (Z.rem n 4 =? 2)%Z; [cbv in Hrot; congruence|].
    destruct (Z.rem n 4 =? 3)%Z; [cbv in Hrot; congruence|].
    discriminate Hrot.
  - cbv. congruence.
  - repeat (apply NoDup_cons; split;
            [rewrite ?not_elem_of_cons; repeat split;
             try congruence; apply not_elem_of_nil|]).
    apply NoDup_nil_2.
Qed.

Lemma board_digits_distinct : NoDup (board "012345678").
Proof.
  vm_compute.
  repeat (apply NoDup_cons_2;
          [rewrite ?not_elem_of_cons; repeat split; try discriminate;
           apply not_elem_of_nil|]).
  apply NoDup_nil_2.
Qed.

Lemma rot90_order_four_mirror_involution_witness :
  let s := board "012345678" in
  rot90 (rot90 (rot90 (rot90 s (Some 1%Z)) (Some 1%Z)) (Some 1%Z)) (Some 1%Z) = s
  /\ (forall n : Z, (n mod 4 = 0)%Z -> rot90 s (Some n) = s)
  /\ mirror (mirror s) = s
  /\ rot90 s (Some 2%Z) = rot90 (rot90 s (Some 1%Z)) (Some 1%Z)
  /\ rot90 s (Some 3%Z) = rot90 (rot90 (rot90 s (Some 1%Z)) (Some 1%Z)) (Some 1%Z)
  /\ mirror (rot90 s (Some 1%Z)) = rot90 (mirror s) (Some 3%Z)
  /\ In s (images s)
  /\ (forall v, In v (images s) ->
        In (rot90 v (Some 1%Z)) (images s) /\ In (mirror v) (images s))
  /\ (forall n : Z, rot90 s (Some n) = s <-> (n mod 4 = 0)%Z)
  /\ mirror s <> s
  /\ NoDup (images s).
Proof.
  intros s.
  destruct (rot90_order_four_mirror_involution (board "012345678") eq_refl)
    as (H1 & H2 & H3 & H4 & H5 & H6 & H7 & H8 & H9).
  do 8 (split; [assumption|]).
  exact (H9 board_digits_distinct).
Defined.

End Symmetry.

(** *** The board model *)

Section Board.

Import TicTacToe.

Lemma loose_eq_Str (v : value) (s : string) :
  loose_eq v (Str s) = true <-> v = Str s.
Proof.
  destruct v as [| |u]; simpl; try (split; [discriminate|discriminate]).
  rewrite String.eqb_eq. split; [by intros ->|by intros [= ->]].
Qed.

Lemma neq_Str (v : value) (s : string) :
  neq v (Str s) = true <-> v <> Str s.
Proof.
  unfold neq. rewrite negb_true_iff, <- not_true_iff_false.
  by rewrite loose_eq_Str.
Qed.

Lemma truthy_iff (s : string) : truthy s = true <-> s <> "".
Proof.
  unfold truthy. rewrite negb_true_iff, <- not_true_iff_false.
  by rewrite String.eqb_eq.
Qed.

Lemma get_set_eq (a : list value) (i : nat) (v : value) :
  (N.of_nat i < 4294967295)%N -> get (Js.set a i v) i = v.
Proof.
  intros Hi. apply N.ltb_lt in Hi.
  unfold get, Js.set. rewrite Hi. destruct (Nat.ltb_spec i (length a)) as [Hlt|Hge].
  - by rewrite list_lookup_insert_eq.
  - rewrite lookup_app_r by done.
    rewrite lookup_app_r by (rewrite length_replicate; lia).
    rewrite length_replicate. by replace (i - length a - (i - length a)) with 0 by lia.
Qed.

Lemma get_set_ne (a : list value) (i j : nat) (v : value) :
  i <> j -> get (Js.set a i v) j = get a j.
Proof.
  intros Hne. unfold get, Js.set.
  destruct (Nat.ltb_spec i (length a)) as [Hlt|Hge].
  - by rewrite list_lookup_insert_ne.
  - destruct (N.of_nat i <? 4294967295)%N; [|done].
    destruct (Nat.lt_ge_cases j (length a)) as [Hj|Hj].
    + by rewrite lookup_app_l.
    + rewrite (lookup_ge_None_2 a j) by done.
      rewrite lookup_app_r by done.
      destruct (Nat.lt_ge_cases (j - length a) (i - length a)) as [Hk|Hk].
      * rewrite lookup_app_l by (by rewrite length_replicate).
        by rewrite lookup_replicate_2.
      * rewrite lookup_app_r by (by rewrite length_replicate).
        rewrite length_replicate.
        destruct (j - length a - (i - length a)) as [|k] eqn:Hd; [lia|done].
Qed.

(** C8: [move(index)] throws [InvalidActionError] exactly when the index is
    outside [0, 8], or the target cell is not the empty marker, or the
    terminal outcome is already non-empty; the game is then unchanged. On
    success the cell holds the token of the player who moved and every other
    cell is as before, the action and a snapshot of the new board are
    appended to the histories, and the turn passes to the other token. *)
Theorem move_throws_iff_else_plays (g : t) (index : Z) :
  let illegal :=
    (index < 0 \/ 8 < index)%Z
    \/ get (state g) (Z.to_nat index) <> Str (nll g)
    \/ checkTermination g None <> "" in
  (snd (move g index) = Some InvalidActionError <-> illegal)
  /\ (illegal -> move g index = (g, Some InvalidActionError))
  /\ (~ illegal ->
      exists g', move g index = (g', None)
        /\ nll g' = nll g
        /\ get (state g') (Z.to_nat index) = Str (currentPlayer g)
        /\ (forall j, j <> Z.to_nat index -> get (state g') j = get (state g) j)
        /\ actionHistory g' = (actionHistory g ++ [Z.to_nat index])%list
        /\ stateHistory g' = (stateHistory g ++ [state g'])%list
        /\ (currentPlayer g = "X" -> currentPlayer g' = "O")
        /\ (currentPlayer g <> "X" -> currentPlayer g' = "X")).
Proof.
  intros illegal. unfold move.
  destruct ((index >=? 9)%Z || (index <? 0)%Z)%bool eqn:Hrange.
  { assert (illegal) as Hi.
    { left. apply orb_true_iff in Hrange as [H|H]; lia. }
    simpl. repeat split; try done. }
  apply orb_false_iff in Hrange as [Hhi Hlo].
  destruct (neq (get (state g) (Z.to_nat index)) (Str (nll g))) eqn:Hcell.
  { assert (illegal) as Hi by (right; left; by apply neq_Str).
    simpl. repeat split; try done. }
  destruct (truthy (checkTermination g None)) eqn:Hterm.
  { assert (illegal) as Hi by (right; right; by apply truthy_iff).
    simpl. repeat split; try done. }
  assert (~ illegal) as Hlegal.
  { intros [Hr|[Hc|Ht]].
    - lia.
    - apply neq_Str in Hc. congruence.
    - apply truthy_iff in Ht. congruence. }
  simpl. split; [|split].
  - split; [discriminate|done].
  - done.
  - intros _. eexists. split; [reflexivity|]. simpl.
    repeat split.
    + apply get_set_eq. lia.
    + intros j Hj. by apply get_set_ne.
    + intros ->. reflexivity.
    + intros Hp. apply String.eqb_neq in Hp. by rewrite Hp.
Qed.

Lemma clear_if_neq (v : value) (t : string) (flag : bool) :
  clear_if (neq v (Str t)) flag = (loose_eq v (Str t) && flag)%bool.
Proof. unfold clear_if, neq. by destruct (loose_eq v (Str t)). Qed.

Lemma and3_rev (a b c : bool) : (c && (b && (a && true)) = a && b && c)%bool.
Proof. by destruct a, b, c. Qed.

Lemma clear_if_negb (c flag : bool) : clear_if c flag = (negb c && flag)%bool.
Proof. by destruct c. Qed.

Lemma outer_body_closed (g : t) (f : diag) (i : nat) :
  i < 3 ->
  outer_body g f i =
    let s := state g in
    if (ownsb s "X" (row i) || ownsb s "X" (col i))%bool then inl "X"
    else if (ownsb s "O" (row i) || ownsb s "O" (col i))%bool then inl "O"
    else inr (mkDiag (isToken s "X" (4 * i) && tlX f) (isToken s "X" (2 * i + 2) && trX f)
                     (isToken s "O" (4 * i) && tlO f) (isToken s "O" (2 * i + 2) && trO f)
                     (negb (isToken s (nll g) (3 * i + 2)) &&
                      (negb (isToken s (nll g) (3 * i + 1)) &&
                       (negb (isToken s (nll g) (3 * i)) && draw f)))).
Proof.
  intros Hi. unfold outer_body.
  destruct i as [|[|[|i]]]; [| | |lia];
    cbn [foldl seq inner_body unroll Nat.add Nat.mul Nat.sub rowX colX rowO colO row col ownsb];
    unfold X, O, isToken; rewrite ?clear_if_neq, ?clear_if_negb, ?and3_rev;
    reflexivity.
Qed.

Lemma outer_loop_closed (g : t) :
  outer_loop g (mkDiag true true true true true) (seq 0 3) =
    let s := state g in
    if (ownsb s "X" (row 0) || ownsb s "X" (col 0))%bool then inl "X"
    else if (ownsb s "O" (row 0) || ownsb s "O" (col 0))%bool then inl "O"
    else if (ownsb s "X" (row 1) || ownsb s "X" (col 1))%bool then inl "X"
    else if (ownsb s "O" (row 1) || ownsb s "O" (col 1))%bool then inl "O"
    else if (ownsb s "X" (row 2) || ownsb s "X" (col 2))%bool then inl "X"
    else if (ownsb s "O" (row 2) || ownsb s "O" (col 2))%bool then inl "O"
    else inr (mkDiag (ownsb s "X" (0, 4, 8)) (ownsb s "X" (2, 4, 6))
                     (ownsb s "O" (0, 4, 8)) (ownsb s "O" (2, 4, 6))
                     (fullb (nll g) s)).
Proof.
  cbn [seq outer_loop].
  rewrite outer_body_closed by lia. cbn zeta.
  destruct (_ || _)%bool; [done|]. destruct (_ || _)%bool; [done|].
  rewrite outer_body_closed by lia. cbn zeta.
  destruct (_ || _)%bool; [done|]. destruct (_ || _)%bool; [done|].
  rewrite outer_body_closed by lia. cbn zeta.
  destruct (_ || _)%bool; [done|]. destruct (_ || _)%bool; [done|].
  f_equal. cbn [tlX trX tlO trO draw Nat.mul Nat.add ownsb fullb forallb seq].
  f_equal; try apply and3_rev.
  generalize (isToken (state g) (nll g)). intros e.
  destruct (e 0), (e 1), (e 2), (e 3), (e 4), (e 5), (e 6), (e 7), (e 8); reflexivity.
Qed.

Lemma checkTermination_closed (g : t) (horizon : option nat) :
  checkTermination g horizon =
    let s := state g in
    if (ownsb s "X" (0, 1, 2) || ownsb s "X" (0, 3, 6))%bool then "X"
    else if (ownsb s "O" (0, 1, 2) || ownsb s "O" (0, 3, 6))%bool then "O"
    else if (ownsb s "X" (3, 4, 5) || ownsb s "X" (1, 4, 7))%bool then "X"
    else if (ownsb s "O" (3, 4, 5) || ownsb s "O" (1, 4, 7))%bool then "O"
    else if (ownsb s "X" (6, 7, 8) || ownsb s "X" (2, 5, 8))%bool then "X"
    else if (ownsb s "O" (6, 7, 8) || ownsb s "O" (2, 5, 8))%bool then "O"
    else if (ownsb s "X" (0, 4, 8) || ownsb s "X" (2, 4, 6))%bool then "X"
    else if (ownsb s "O" (0, 4, 8) || ownsb s "O" (2, 4, 6))%bool then "O"
    else if fullb (nll g) s then "draw"
    else "".
Proof.
  unfold checkTermination. rewrite outer_loop_closed. cbn zeta.
  change (row 0) with (0, 1, 2). change (col 0) with (0, 3, 6).
  change (row 1) with (3, 4, 5). change (col 1) with (1, 4, 7).
  change (row 2) with (6, 7, 8). change (col 2) with (2, 5, 8).
  repeat (destruct (_ || _)%bool; [done|]).
  reflexivity.
Qed.

Lemma regroup (x : nat * nat * nat -> bool) :
  (x (0, 1, 2) || (x (3, 4, 5) || (x (6, 7, 8) || (x (0, 3, 6) || (x (1, 4, 7) ||
     (x (2, 5, 8) || (x (0, 4, 8) || (x (2, 4, 6) || false))))))))%bool
  = ((x (0, 1, 2) || x (0, 3, 6)) || (x (3, 4, 5) || x (1, 4, 7)) ||
     (x (6, 7, 8) || x (2, 5, 8)) || (x (0, 4, 8) || x (2, 4, 6)))%bool.
Proof.
  destruct (x (0, 1, 2)), (x (3, 4, 5)), (x (6, 7, 8)), (x (0, 3, 6)),
           (x (1, 4, 7)), (x (2, 5, 8)), (x (0, 4, 8)), (x (2, 4, 6)); reflexivity.
Qed.

(** The outcome in terms of the boolean tests. *)
Lemma checkTermination_cases (g : t) (horizon : option nat) :
  let s := state g in
  let out := checkTermination g horizon in
  (wonb s "X" = true -> wonb s "O" = false -> out = "X")
  /\ (wonb s "O" = true -> wonb s "X" = false -> out = "O")
  /\ (out = "draw" <-> fullb (nll g) s = true /\ wonb s "X" = false /\ wonb s "O" = false)
  /\ (out = "" <-> fullb (nll g) s = false /\ wonb s "X" = false /\ wonb s "O" = false).
Proof.
  intros s out. subst out. rewrite checkTermination_closed. fold s. cbn zeta.
  unfold wonb. cbn [existsb lines].
  generalize (ownsb s "X") (ownsb s "O") (fullb (nll g) s). intros x o f.
  rewrite (regroup x), (regroup o).
  destruct (x (0, 1, 2) || x (0, 3, 6))%bool, (o (0, 1, 2) || o (0, 3, 6))%bool,
           (x (3, 4, 5) || x (1, 4, 7))%bool, (o (3, 4, 5) || o (1, 4, 7))%bool,
           (x (6, 7, 8) || x (2, 5, 8))%bool, (o (6, 7, 8) || o (2, 5, 8))%bool,
           (x (0, 4, 8) || x (2, 4, 6))%bool, (o (0, 4, 8) || o (2, 4, 6))%bool, f;
    cbn; repeat split; intros; try done; try (by intuition discriminate).
Qed.

Lemma ownsb_owns (s : list value) (t : string) (l : nat * nat * nat) :
  ownsb s t l = true <-> owns s t l.
Proof.
  destruct l as [[a b] c]. unfold ownsb, owns, isToken.
  rewrite !andb_true_iff, !loose_eq_Str. tauto.
Qed.

Lemma wonb_won (s : list value) (t : string) : wonb s t = true <-> won s t.
Proof.
  unfold wonb, won. rewrite existsb_exists.
  split; intros (l & Hl & Ho); exists l; (split; [done|]); by apply ownsb_owns.
Qed.

Lemma wonb_not_won (s : list value) (t : string) : wonb s t = false <-> ~ won s t.
Proof. by rewrite <- wonb_won, not_true_iff_false. Qed.

Lemma fullb_full (nll : string) (s : list value) : fullb nll s = true <-> full nll s.
Proof.
  unfold fullb, full. rewrite forallb_forall. split.
  - intros H i Hi. specialize (H i). rewrite List.in_seq in H.
    unfold isToken in H. rewrite negb_true_iff in H.
    rewrite <- loose_eq_Str, not_true_iff_false. apply H. lia.
  - intros H i Hi. apply List.in_seq in Hi. unfold isToken.
    rewrite negb_true_iff, <- not_true_iff_false, loose_eq_Str. apply H. lia.
Qed.

Lemma fullb_not_full (nll : string) (s : list value) :
  fullb nll s = false <-> exists i, i < 9 /\ get s i = Str nll.
Proof.
  unfold fullb. split.
  - intros H.
    assert (existsb (isToken s nll) (seq 0 9) = true) as He.
    { rewrite <- negb_false_iff. rewrite <- H. clear H.
      induction (seq 0 9) as [|i l IH]; [done|].
      simpl. rewrite negb_orb. by rewrite IH. }
    apply existsb_exists in He as (i & Hi & Ht). apply List.in_seq in Hi.
    exists i. split; [lia|]. by apply loose_eq_Str.
  - intros (i & Hi & Hc). apply not_true_iff_false. rewrite forallb_forall.
    intros H. specialize (H i). rewrite List.in_seq in H.
    unfold isToken in H. apply loose_eq_Str in Hc. rewrite Hc in H.
    discriminate H. lia.
Qed.

Lemma exactlyOneLine_won (s : list value) (t u : string) :
  (u = "X" \/ u = "O") -> t <> u -> exactlyOneLine s t -> won s t /\ ~ won s u.
Proof.
  intros Hu Hne (l & Hl & Ho & Huniq). split; [by exists l|].
  intros (l' & Hl' & Ho').
  rewrite (Huniq l' u Hu Hl' Ho') in Ho'.
  destruct l as [[a b] c]. destruct Ho as [Ha _], Ho' as [Ha' _]. congruence.
Qed.

(** The outcome in terms of the owned lines and the empty cells, on every
    board. *)
Lemma checkTermination_by_lines (g : t) (horizon : option nat) :
  let s := state g in
  let out := checkTermination g horizon in
  (won s "X" -> ~ won s "O" -> out = "X")
  /\ (won s "O" -> ~ won s "X" -> out = "O")
  /\ (forall t, (t = "X" \/ t = "O") -> exactlyOneLine s t -> out = t)
  /\ (out = "draw" <-> full (nll g) s /\ ~ won s "X" /\ ~ won s "O")
  /\ (out = "" <-> (exists i, i < 9 /\ get s i = Str (nll g)) /\ ~ won s "X" /\ ~ won s "O")
  /\ (full (nll g) s -> won s "X" \/ won s "O" -> out <> "draw" /\ out <> "").
Proof.
  intros s out.
  destruct (checkTermination_cases g horizon) as (HX & HO & Hdraw & Hnone).
  fold s out in HX, HO, Hdraw, Hnone.
  rewrite !wonb_won, !wonb_not_won in *.
  rewrite fullb_full in Hdraw. rewrite fullb_not_full in Hnone.
  repeat split; try tauto.
  - intros t [-> | ->] Hone.
    + destruct (exactlyOneLine_won s "X" "O") as [Hw Hn]; [tauto|done|done|].
      by apply HX.
    + destruct (exactlyOneLine_won s "O" "X") as [Hw Hn]; [tauto|done|done|].
      by apply HO.
Qed.

Lemma StronglySorted_filter (f : nat -> bool) (l : list nat) :
  StronglySorted lt l -> StronglySorted lt (List.filter f l).
Proof.
  induction 1 as [|x l Hl IH Hx]; simpl; [constructor|].
  destruct (f x); [|done].
  constructor; [done|].
  rewrite List.Forall_forall in *. intros y Hy.
  apply List.filter_In in Hy as [Hy _]. by apply Hx.
Qed.

Lemma StronglySorted_seq (len start : nat) : StronglySorted lt (seq start len).
Proof.
  revert start. induction len as [|len IH]; intros start; simpl; constructor.
  - apply IH.
  - rewrite List.Forall_forall. intros y Hy. apply List.in_seq in Hy. lia.
Qed.

(** What [getValidActions] returns, whatever the horizon passed to it: the
    empty cells of the current state, in ascending order. *)
Lemma getValidActions_current (g : t) (horizon : option nat) :
  (forall i, In i (getValidActions g horizon) <-> isEmptyCell (nll g) (state g) i)
  /\ StronglySorted lt (getValidActions g horizon).
Proof.
  split.
  - intros i. unfold getValidActions, isEmptyCell.
    rewrite List.filter_In, List.in_seq, loose_eq_Str. intuition lia.
  - apply StronglySorted_filter, StronglySorted_seq.
Qed.

(** C4: the legal-action query lists, in ascending order, the empty cells of
    the current state, also when a horizon is given. After the single move
    [0] the query at horizon [0] leaves out cell [0], which is empty in
    [stateHistory[0]]. *)
Theorem getValidActions_drops_horizon :
  (forall g horizon,
      (forall i, In i (getValidActions g horizon) <-> isEmptyCell (nll g) (state g) i)
      /\ StronglySorted lt (getValidActions g horizon))
  /\ (let g := play [0%Z] in
      exists s0, stateHistory g !! 0 = Some s0
        /\ isEmptyCell (nll g) s0 0
        /\ getValidActions g (Some 0) = [1; 2; 3; 4; 5; 6; 7; 8]
        /\ ~ In 0 (getValidActions g (Some 0))).
Proof.
  split; [apply getValidActions_current|].
  simpl. eexists. split; [reflexivity|].
  split; [split; [lia|reflexivity]|].
  split; [reflexivity|].
  vm_compute. intuition discriminate.
Qed.

End Board.

(** *** The canonicalizer *)

Section Canonicalizer.

Import TicTacToe Agent.

Lemma first_match_Some (a : Agent.t) (candidate : Z -> string) (ns : list Z) (key : string) :
  first_match a candidate ns = Some key ->
  has a key = true /\ exists n, In n ns /\ key = candidate n.
Proof.
  induction ns as [|n ns IH]; simpl; [discriminate|].
  destruct (has a (candidate n)) eqn:Hn.
  - intros [= <-]. split; [done|]. exists n. tauto.
  - intros H. destruct (IH H) as (Hk & m & Hm & ->). split; [done|]. exists m. tauto.
Qed.

Lemma first_match_None (a : Agent.t) (candidate : Z -> string) (ns : list Z) :
  first_match a candidate ns = None ->
  forall n, In n ns -> has a (candidate n) = false.
Proof.
  induction ns as [|n ns IH]; simpl; [tauto|].
  destruct (has a (candidate n)) eqn:Hn; [discriminate|].
  intros H m [<- | Hm]; [done|]. by apply IH.
Qed.

Lemma rotatedKey_variant (state : list value) (action : nat) (n : Z) :
  rotatedKey state (actionArrayOf (Idx action)) n = variantKey state action false n.
Proof. reflexivity. Qed.

(** The keys tried by the second loop carry no cell of the board. *)
Lemma mirroredKey_bare (mirrorState mirrorActionArray : list value) (n : Z) :
  mirroredKey mirrorState mirrorActionArray n
  = string_of_action (of_option (toActionIndex (rot90 mirrorActionArray (Some n)))).
Proof. reflexivity. Qed.

Lemma mirroredKey_short (mirrorState : list value) (action : nat) (n : Z) :
  action < 9 -> In n [1; 2; 3]%Z ->
  String.length (mirroredKey mirrorState
                   (mirror (actionArrayOf (Idx action))) n) <> 10.
Proof.
  intros Ha Hn. rewrite mirroredKey_bare.
  do 9 (destruct action as [|action];
    [destruct Hn as [<- | [<- | [<- | []]]]; vm_compute; discriminate|]).
  lia.
Qed.

Lemma variantKey_identity (state : list value) (action : nat) :
  action < 9 -> variantKey state action false 0 = _hash state (Idx action).
Proof.
  intros Ha.
  do 9 (destruct action as [|action]; [reflexivity|]).
  lia.
Qed.

(** C1: when the table holds the key of one of the four unmirrored rotations
    of [(state, action)] (the pair itself included), holds the key of no
    other variant, and all its keys have the ten characters of a hashed
    board, [getKey] returns that key. *)
Theorem getKey_returns_rotated_representative
    (a : Agent.t) (state : list value) (action : nat) (k : Z) :
  action < 9 ->
  In k turns ->
  keysHashed a ->
  soleRepresentative a state action false k ->
  getKey a state (Idx action) = variantKey state action false k.
Proof.
  intros Ha Hk Hlen [Hhas Hsole]. unfold getKey.
  destruct (first_match a (rotatedKey state (actionArrayOf (Idx action))) [1; 2; 3]%Z)
    as [key|] eqn:Hfirst.
  - apply first_match_Some in Hfirst as (Hkey & n & Hn & ->).
    rewrite rotatedKey_variant in *.
    apply Hsole; [|done]. simpl in Hn |- *. tauto.
  - assert (k = 0%Z) as ->.
    { destruct Hk as [<- | Hk]; [done|].
      pose proof (first_match_None _ _ _ Hfirst k Hk) as Hmiss.
      rewrite rotatedKey_variant in Hmiss. congruence. }
    cbn zeta.
    destruct (first_match a (mirroredKey _ _) [1; 2; 3]%Z) as [key|] eqn:Hsecond.
    + apply first_match_Some in Hsecond as (Hkey & n & Hn & ->).
      apply Hlen in Hkey. by apply mirroredKey_short in Hkey.
    + symmetry. by apply variantKey_identity.
Qed.

Lemma getKey_returns_rotated_representative_witness :
  getKey (agentWith "__X__O___8" 1%Q) (board "XO_______") (Idx 2) = "__X__O___8".
Proof.
  change "__X__O___8" with (variantKey (board "XO_______") 2 false 1) at 2.
  apply getKey_returns_rotated_representative.
  - lia.
  - simpl. tauto.
  - intros key. unfold has, agentWith. simpl.
    destruct (decide (key = "__X__O___8")) as [-> | Hne]; [reflexivity|].
    by rewrite lookup_singleton_ne.
  - split; [vm_compute; reflexivity|].
    intros mirrored' k' Hk' Hhas.
    destruct mirrored'; destruct Hk' as [<- | [<- | [<- | [<- | []]]]];
      vm_compute in Hhas; try discriminate Hhas; vm_compute; reflexivity.
Defined.

Lemma length_append (s1 s2 : string) :
  String.length (s1 ++ s2) = String.length s1 + String.length s2.
Proof. induction s1 as [|c s1 IH]; simpl; [done|by rewrite IH]. Qed.

Lemma join_length (s : list value) :
  Forall (fun c => exists ch, c = Str (String ch "")) s ->
  String.length (join s) = length s.
Proof.
  unfold join. induction 1 as [|c s [ch ->] _ IH]; [done|].
  cbn [fold_right length]. by rewrite length_append, IH.
Qed.

(** The keys [getKey] returns keep the table's keys hashes of boards. *)
Lemma getKey_keysHashed (a : Agent.t) (state : list value) (action : nat) :
  keysHashed a -> wellFormed state -> action < 9 ->
  String.length (getKey a state (Idx action)) = 10.
Proof.
  intros Hkeys [Hnine Hcells] Ha. unfold getKey.
  destruct (first_match a (rotatedKey _ _) _) as [key|] eqn:Hfirst.
  { apply first_match_Some in Hfirst as [Hhas _]. by apply Hkeys. }
  cbn zeta.
  destruct (first_match a (mirroredKey _ _) _) as [key|] eqn:Hsecond.
  { apply first_match_Some in Hsecond as [Hhas _]. by apply Hkeys. }
  unfold _hash. rewrite length_append, join_length, Hnine by done.
  do 9 (destruct action as [|action]; [reflexivity|]). lia.
Qed.

Lemma set_Q_keysHashed (a : Agent.t) (key : string) (v : number) :
  keysHashed a -> String.length key = 10 -> keysHashed (set_Q a (<[key := v]> (Q a))).
Proof.
  intros Hkeys Hlen key'. unfold has. cbn [Q set_Q].
  destruct (decide (key = key')) as [<- | Hne]; [done|].
  rewrite lookup_insert_ne by done. apply Hkeys.
Qed.

(** C1, the mirror image alone: with the key of the mirrored pair as the only
    entry of the table, [getKey] returns the fresh literal hash. *)
Lemma getKey_misses_mirror_image :
  ~ returnsRepresentative (agentWith "_OX______0" 1%Q) (board "XO_______") 2 true 0.
Proof.
  intros H.
  assert (getKey (agentWith "_OX______0" 1%Q) (board "XO_______") (Idx 2)
          = "XO_______2") as Hcode by (vm_compute; reflexivity).
  assert (variantKey (board "XO_______") 2 true 0 = "_OX______0") as Hkey
    by (vm_compute; reflexivity).
  unfold returnsRepresentative in H. rewrite Hcode, Hkey in H.
  cut ("XO_______2" = "_OX______0"); [discriminate|].
  apply H. split.
  - rewrite Hkey. vm_compute. reflexivity.
  - intros mirrored' k' Hk' Hhas. rewrite Hkey.
    destruct mirrored'; destruct Hk' as [<- | [<- | [<- | [<- | []]]]];
      vm_compute in Hhas; try discriminate Hhas; vm_compute; reflexivity.
Qed.

(** C2: the second sweep of [getKey] looks up the bare rotated action index,
    without the cells of the mirrored and rotated state. With the key of the
    mirrored pair rotated once as the only entry of the table, none of the
    rotated unmirrored keys is present, the entry is the key the sweep should
    meet at [n = 1], and [getKey] returns the literal hash instead. *)
Theorem getKey_mirror_sweep_drops_state :
  (forall mirrorState mirrorActionArray n,
      mirroredKey mirrorState mirrorActionArray n
      = string_of_action (of_option (toActionIndex (rot90 mirrorActionArray (Some n)))))
  /\ (let a := agentWith "_____O__X2" 1%Q in
      let state := board "XO_______" in
      first_match a (rotatedKey state (actionArrayOf (Idx 2))) [1; 2; 3]%Z = None
      /\ variantKey state 2 true 1 = "_____O__X2"
      /\ has a (variantKey state 2 true 1) = true
      /\ mirroredKey (mirror state) (mirror (actionArrayOf (Idx 2))) 1 = "2"
      /\ getKey a state (Idx 2) = "XO_______2").
Proof.
  split; [apply mirroredKey_bare|].
  cbn zeta. repeat split; vm_compute; reflexivity.
Qed.

End Canonicalizer.

(** *** Construction of the agents *)

Section Construction.

Import Agent EpsilonGreedyAgent.

(** C6: the constructors store the exploration rate on the global object;
    the [epsilon] field of the agent they return is [undefined]. *)
Theorem constructors_leave_epsilon_undefined
    (w : global) (player : string) (eps discount alpha defaultQ : number) :
  epsilon (snd (MonteCarloAgent.constructor w player eps discount defaultQ)) = None
  /\ epsilon (snd (QLearningAgent.constructor w player eps discount alpha defaultQ)) = None
  /\ self_epsilon (fst (QLearningAgent.constructor w player eps discount alpha defaultQ))
     = Some eps
  /\ (forall u,
        explores (snd (QLearningAgent.constructor w player eps discount alpha defaultQ)) u
        = false).
Proof. repeat split. Qed.

End Construction.

(** *** The Monte-Carlo learner *)

Section MonteCarlo.

Import Agent MonteCarloAgent.
Local Open Scope Q_scope.

Lemma inject_succ (n : nat) : inject_Z (Z.of_nat (n + 1)) == inject_Z (Z.of_nat n) + 1.
Proof. rewrite Nat2Z.inj_add, inject_Z_plus. reflexivity. Qed.

Lemma inject_succ_nonzero (n : nat) : ~ inject_Z (Z.of_nat n) + 1 == 0.
Proof.
  intros H. assert (0 <= inject_Z (Z.of_nat n)) as Hn.
  { change 0 with (inject_Z 0). rewrite <- Zle_Qle. lia. }
  lra.
Qed.

Lemma average_same (a : Agent.t) (key : string) (g : number) :
  visits (average a key g) key = (visits a key + 1)%nat
  /\ valueOf (average a key g) key * inject_Z (Z.of_nat (visits a key + 1))
     == valueOf a key * inject_Z (Z.of_nat (visits a key)) + g
  /\ is_Some (Q (average a key g) !! key)
  /\ is_Some (countQ (average a key g) !! key).
Proof.
  unfold average, visits, valueOf. cbn [Q countQ set_Q set_countQ].
  rewrite !lookup_insert_eq.
  repeat split; try by eexists.
  rewrite inject_succ. field. apply inject_succ_nonzero.
Qed.

Lemma average_other (a : Agent.t) (key key' : string) (g : number) :
  key' <> key ->
  Q (average a key' g) !! key = Q a !! key
  /\ countQ (average a key' g) !! key = countQ a !! key.
Proof.
  intros Hne. unfold average. cbn [Q countQ set_Q set_countQ].
  by rewrite !lookup_insert_ne.
Qed.

Lemma returnsFor_cons (key : string) (u : string * number) (us : list (string * number)) :
  returnsFor key (u :: us)
  = if String.eqb (fst u) key then snd u :: returnsFor key us else returnsFor key us.
Proof. unfold returnsFor. simpl. by destruct (String.eqb (fst u) key). Qed.

Lemma applyReturns_total (key : string) (us : list (string * number)) (a : Agent.t) :
  let R := returnsFor key us in
  let a' := applyReturns a us in
  visits a' key = (visits a key + length R)%nat
  /\ valueOf a' key * inject_Z (Z.of_nat (visits a key + length R))
     == valueOf a key * inject_Z (Z.of_nat (visits a key)) + total R
  /\ (is_Some (Q a !! key) \/ R <> [] -> is_Some (Q a' !! key))
  /\ (is_Some (countQ a !! key) \/ R <> [] -> is_Some (countQ a' !! key)).
Proof.
  revert a. induction us as [|[key' g] us IH]; intros a; cbn zeta.
  - simpl. rewrite Nat.add_0_r.
    repeat split; [ring | intros [H|H]; done | intros [H|H]; done].
  - rewrite returnsFor_cons. cbn [fst snd applyReturns foldl].
    specialize (IH (average a key' g)). cbn zeta in IH. fold (applyReturns (average a key' g) us) in *.
    destruct IH as (Hn & Hv & HQ & HC).
    destruct (String.eqb_spec key' key) as [-> | Hne].
    + destruct (average_same a key g) as (Hn1 & Hv1 & HQ1 & HC1).
      cbn [length total fold_right].
      rewrite Hn1 in Hn, Hv.
      replace (visits a key + S (length (returnsFor key us)))%nat
        with (visits a key + 1 + length (returnsFor key us))%nat by lia.
      repeat split; [done| |by intros _; apply HQ; left|by intros _; apply HC; left].
      rewrite Hv, Hv1. fold (total (returnsFor key us)). ring.
    + destruct (average_other a key key' g Hne) as (HQ1 & HC1).
      assert (visits (average a key' g) key = visits a key) as Hvis
        by (unfold visits; by rewrite HC1).
      assert (valueOf (average a key' g) key = valueOf a key) as Hval
        by (unfold valueOf; by rewrite HQ1).
      rewrite Hvis, Hval, HQ1, HC1 in *. done.
Qed.

Lemma returnsFor_Permutation (key : string) (us us' : list (string * number)) :
  Permutation us us' -> Permutation (returnsFor key us) (returnsFor key us').
Proof.
  induction 1 as [|u us us' _ IH|u v us|us1 us2 us3 _ IH1 _ IH2].
  - constructor.
  - rewrite !returnsFor_cons. destruct (String.eqb (fst u) key); [by constructor|done].
  - rewrite !returnsFor_cons.
    destruct (String.eqb (fst u) key), (String.eqb (fst v) key); try reflexivity.
    constructor.
  - by etransitivity.
Qed.

Lemma total_Permutation (gs gs' : list number) :
  Permutation gs gs' -> total gs == total gs'.
Proof.
  induction 1 as [|g gs gs' _ IH|g h gs|gs1 gs2 gs3 _ IH1 _ IH2]; simpl.
  - reflexivity.
  - by rewrite IH.
  - ring.
  - by rewrite IH1.
Qed.

Lemma mean_Permutation (gs gs' : list number) :
  Permutation gs gs' -> mean gs == mean gs'.
Proof.
  intros H. unfold mean.
  rewrite (total_Permutation _ _ H), (Permutation_length H). reflexivity.
Qed.

(** C7: starting from a table without visit count for [key], after the
    incremental-mean update has been applied for any sequence of keys and
    returns in which [key] occurs, the value stored under [key] equals the
    arithmetic mean of the returns applied to it and the stored count is
    their number; the same holds for every reordering of the sequence. *)
Theorem average_is_arithmetic_mean
    (a : Agent.t) (key : string) (us : list (string * number)) :
  countQ a !! key = None ->
  returnsFor key us <> [] ->
  countQ (applyReturns a us) !! key = Some (length (returnsFor key us))
  /\ (exists v, Q (applyReturns a us) !! key = Some v /\ v == mean (returnsFor key us))
  /\ (forall us', Permutation us us' ->
        countQ (applyReturns a us') !! key = Some (length (returnsFor key us))
        /\ exists v', Q (applyReturns a us') !! key = Some v'
                      /\ v' == mean (returnsFor key us)).
Proof.
  intros Hfresh Hsome.
  assert (forall us', Permutation us us' ->
            countQ (applyReturns a us') !! key = Some (length (returnsFor key us))
            /\ exists v', Q (applyReturns a us') !! key = Some v'
                          /\ v' == mean (returnsFor key us)) as Hall.
  { intros us' Hperm.
    pose proof (returnsFor_Permutation key _ _ Hperm) as HR.
    assert (returnsFor key us' <> []) as Hsome'.
    { intros Hnil. rewrite Hnil in HR. by apply Permutation_nil_r in HR. }
    destruct (applyReturns_total key us' a) as (Hn & Hv & HQ & HC).
    assert (visits a key = 0%nat) as Hzero by (unfold visits; by rewrite Hfresh).
    rewrite Hzero in Hn, Hv. simpl in Hn, Hv.
    destruct HQ as [v Hq]; [by right|]. destruct HC as [n Hc]; [by right|].
    unfold visits in Hn. rewrite Hc in Hn. unfold valueOf in Hv. rewrite Hq in Hv.
    rewrite Hc, Hn, (Permutation_length HR). split; [done|].
    exists v. split; [done|].
    rewrite (mean_Permutation _ _ HR). unfold mean.
    assert (~ inject_Z (Z.of_nat (length (returnsFor key us'))) == 0) as Hlen.
    { destruct (returnsFor key us'); [done|]. simpl length.
      replace (S (length l)) with (length l + 1)%nat by lia.
      rewrite inject_succ. apply inject_succ_nonzero. }
    apply (Qmult_inj_r _ _ _ Hlen). rewrite Hv. field. exact Hlen. }
  destruct (Hall us (Permutation_refl us)) as (Hc & Hv).
  repeat split; try done.
  - by apply Hall.
  - by apply Hall.
Qed.

Lemma average_is_arithmetic_mean_witness :
  let us := [("XO_______2", 1); ("_________4", 5); ("XO_______2", 0); ("XO_______2", -1 # 2)] in
  let a := applyReturns (Agent.constructor "O" 0) us in
  countQ a !! "XO_______2" = Some 3%nat
  /\ exists v, Q a !! "XO_______2" = Some v /\ v == 1 # 6.
Proof.
  intros us a.
  destruct (average_is_arithmetic_mean (Agent.constructor "O" 0) "XO_______2" us)
    as (Hcount & (v & Hv & Hmean) & _).
  - reflexivity.
  - discriminate.
  - split; [exact Hcount|]. exists v. split; [exact Hv|]. rewrite Hmean. reflexivity.
Defined.

End MonteCarlo.

(** *** The epsilon-greedy policy *)

Section Policy.

Import TicTacToe Agent EpsilonGreedyAgent.
Local Open Scope Q_scope.

Lemma Qltb_lt (x y : number) : Qltb x y = true <-> x < y.
Proof.
  unfold Qltb. rewrite negb_true_iff, <- not_true_iff_false, Qle_bool_iff.
  split; [apply Qnot_le_lt | apply Qlt_not_le].
Qed.

Lemma Qltb_ge (x y : number) : Qltb x y = false <-> y <= x.
Proof. unfold Qltb. by rewrite negb_false_iff, Qle_bool_iff. Qed.

Lemma greedy_never_explores (a : Agent.t) (u : number) :
  greedy a -> 0 <= u -> explores a u = false.
Proof.
  intros Hg Hu. unfold explores. destruct (epsilon a) as [e|] eqn:He; [|done].
  apply Qltb_ge. specialize (Hg e He). lra.
Qed.

(** The fold of [bestActions] over the legal actions, each paired with its
    key. *)
Lemma bestActions_fold (a : Agent.t) (state : list value) (l : list nat)
    (acc : option number * list nat) :
  foldl (best_body a) acc (zip l (map (fun action => getKey a state (Idx action)) l))
  = foldl (fun acc x => best_body a acc (x, getKey a state (Idx x))) acc l.
Proof.
  revert acc. induction l as [|x l IH]; intros acc; [done|]. simpl. apply IH.
Qed.

Lemma tieInvariant_step (a : Agent.t) (state : list value) (seen : list nat)
    (acc : option number * list nat) (x : nat) :
  tieInvariant (actionValue a state) seen acc ->
  tieInvariant (actionValue a state) (seen ++ [x])
    (best_body a acc (x, getKey a state (Idx x))).
Proof.
  assert (0 < tolerance) as Htol by reflexivity.
  destruct acc as [[m|] best]; unfold best_body; fold (actionValue a state x).
  - intros ((x0 & Hx0 & Hm) & Hbest & Hall & Hmax).
    destruct (Qltb (m - tolerance) (actionValue a state x)) eqn:Hlo;
      [destruct (Qltb (actionValue a state x) (m + tolerance)) eqn:Hhi|]; cbn [andb].
    + apply Qltb_lt in Hlo, Hhi. split; [|split; [|split]].
      * exists x0. rewrite in_app_iff. tauto.
      * intros y Hy. rewrite in_app_iff.
        apply in_app_iff in Hy as [Hy|[<-|[]]]; [|split; [right; by left|done]].
        destruct (Hbest y Hy). tauto.
      * intros y Hy. apply in_app_iff in Hy as [Hy|[<-|[]]]; [by apply Hall|done].
      * intros y Hy Hge. rewrite in_app_iff.
        apply in_app_iff in Hy as [Hy|[<-|[]]]; [left; by apply Hmax|right; by left].
    + apply Qltb_lt in Hlo. apply Qltb_ge in Hhi.
      assert (Qltb m (actionValue a state x) = true) as -> by (apply Qltb_lt; lra).
      split; [|split; [|split]].
      * exists x. rewrite in_app_iff. split; [right; by left|done].
      * intros y [<-|[]]. rewrite in_app_iff. split; [right; by left|lra].
      * intros y Hy. apply in_app_iff in Hy as [Hy|[<-|[]]]; [|lra].
        specialize (Hall y Hy). lra.
      * intros y Hy Hge. apply in_app_iff in Hy as [Hy|[<-|[]]]; [|by left].
        specialize (Hall y Hy). lra.
    + apply Qltb_ge in Hlo.
      assert (Qltb m (actionValue a state x) = false) as -> by (apply Qltb_ge; lra).
      split; [|split; [|split]].
      * exists x0. rewrite in_app_iff. tauto.
      * intros y Hy. rewrite in_app_iff. destruct (Hbest y Hy). tauto.
      * intros y Hy. apply in_app_iff in Hy as [Hy|[<-|[]]]; [by apply Hall|lra].
      * intros y Hy Hge. apply in_app_iff in Hy as [Hy|[<-|[]]]; [by apply Hmax|lra].
  - intros [-> ->]. split; [|split; [|split]].
    + exists x. split; [by left|done].
    + intros y [<-|[]]. split; [by left|lra].
    + intros y [<-|[]]. lra.
    + intros y [<-|[]] _. by left.
Qed.

Lemma tieInvariant_fold (a : Agent.t) (state : list value) (l seen : list nat)
    (acc : option number * list nat) :
  tieInvariant (actionValue a state) seen acc ->
  tieInvariant (actionValue a state) (seen ++ l)
    (foldl (fun acc x => best_body a acc (x, getKey a state (Idx x))) acc l).
Proof.
  revert seen acc. induction l as [|x l IH]; intros seen acc Hinv; simpl.
  - by rewrite app_nil_r.
  - replace (seen ++ x :: l)%list with ((seen ++ [x]) ++ l)%list by (by rewrite <- app_assoc).
    apply IH. by apply tieInvariant_step.
Qed.

(** The tie set of the greedy pass over a non-empty list of legal actions:
    it holds every action of maximal value, and only legal actions whose
    value is within twice the tolerance of every other. *)
Lemma bestActions_bounds (a : Agent.t) (state : list value) (legal : list nat) :
  legal <> [] ->
  let best := bestActions a state legal in
  best <> []
  /\ (forall x, In x legal ->
        (forall y, In y legal -> actionValue a state y <= actionValue a state x) ->
        In x best)
  /\ (forall x, In x best ->
        In x legal /\
        forall y, In y legal ->
          actionValue a state y - 2 * tolerance < actionValue a state x).
Proof.
  intros Hne best. subst best. unfold bestActions. rewrite bestActions_fold.
  pose proof (tieInvariant_fold a state legal [] (None, []) (conj eq_refl eq_refl)) as Hinv.
  simpl in Hinv.
  destruct (foldl _ _ legal) as [[m|] best]; simpl in *.
  - destruct Hinv as ((x0 & Hx0 & Hm) & Hbest & Hall & Hmax).
    split; [|split].
    + intros ->. apply (Hmax x0 Hx0). rewrite Hm. lra.
    + intros x Hx Htop. apply Hmax; [done|]. rewrite <- Hm. by apply Htop.
    + intros x Hx. destruct (Hbest x Hx) as [Hin Hlo]. split; [done|].
      intros y Hy. specialize (Hall y Hy). lra.
  - destruct Hinv as [-> _]. done.
Qed.

Lemma policy_greedy (a : Agent.t) (game : TicTacToe.t) (horizon : option nat)
    (state : list value) (r : random) :
  (horizon = None -> player a = currentPlayer game) ->
  stateAt game horizon = Some state ->
  getValidActions game horizon <> [] ->
  explores a (r 0%nat) = false ->
  policy a game horizon r
  = Ok (randomChoice (bestActions a state (getValidActions game horizon)) (r 1%nat),
        fun n => r (S (S n))).
Proof.
  intros Hturn Hstate Hlegal Hgreedy. unfold policy.
  assert ((bool_decide (horizon = None)
           && negb (String.eqb (player a) (currentPlayer game)))%bool = false) as ->.
  { destruct horizon as [h|]; [done|]. rewrite (Hturn eq_refl), String.eqb_refl.
    by rewrite andb_false_r. }
  destruct (getValidActions game horizon) as [|x legal] eqn:Hl; [done|].
  cbn [length Nat.eqb Math_random]. rewrite Hgreedy, Hstate.
  destruct (bestActions_bounds a state (x :: legal)) as (Hbest & _); [done|].
  destruct (bestActions a state (x :: legal)) as [|b best]; [done|].
  reflexivity.
Qed.

Lemma randomChoice_In (arr : list nat) (u : number) (x : nat) :
  randomChoice arr u = Idx x -> In x arr.
Proof.
  unfold randomChoice. destruct (arr !! _) as [y|] eqn:Hy; [|discriminate].
  intros [= ->]. apply list_elem_of_In. by eapply list_elem_of_lookup_2.
Qed.

Lemma randomChoice_reaches (arr : list nat) (x : nat) :
  In x arr -> exists u, 0 <= u < 1 /\ randomChoice arr u = Idx x.
Proof.
  intros Hx. apply list_elem_of_In, list_elem_of_lookup in Hx as [i Hi].
  pose proof (lookup_lt_Some _ _ _ Hi) as Hlt.
  set (n := inject_Z (Z.of_nat (length arr))).
  assert (0 < n) as Hn.
  { unfold n. change 0 with (inject_Z 0). rewrite <- Zlt_Qlt. lia. }
  exists (inject_Z (Z.of_nat i) / n). split; [split|].
  - apply Qle_shift_div_l; [done|]. rewrite Qmult_0_l.
    change 0 with (inject_Z 0). rewrite <- Zle_Qle. lia.
  - apply Qlt_shift_div_r; [done|]. rewrite Qmult_1_l.
    unfold n. rewrite <- Zlt_Qlt. lia.
  - unfold randomChoice. fold n.
    assert (inject_Z (Z.of_nat i) / n * n == inject_Z (Z.of_nat i)) as ->
      by (field; lra).
    by rewrite Qfloor_Z, Nat2Z.id, Hi.
Qed.

(** In the greedy branch the actions the policy can return are the members
    of [bestActions]. *)
Lemma canReturn_bestActions
    (a : Agent.t) (game : TicTacToe.t) (horizon : option nat) (state : list value) :
  greedy a ->
  (horizon = None -> player a = currentPlayer game) ->
  stateAt game horizon = Some state ->
  getValidActions game horizon <> [] ->
  forall x, canReturn a game horizon x
            <-> In x (bestActions a state (getValidActions game horizon)).
Proof.
  intros Hgreedy Hturn Hstate Hlegal x. split.
  - intros (r & r' & Hr & Hp).
    rewrite (policy_greedy a game horizon state r) in Hp; try done.
    + injection Hp as Hp _. by apply randomChoice_In in Hp.
    + apply greedy_never_explores; [done|]. apply Hr.
  - intros Hx. destruct (randomChoice_reaches _ x Hx) as (u & Hu & Hchoice).
    exists (fun _ => u), (fun _ => u). split; [by intros _|].
    rewrite (policy_greedy a game horizon state (fun _ => u)); try done.
    + by rewrite Hchoice.
    + apply greedy_never_explores; [done|]. apply Hu.
Qed.

Lemma nearTies_bestActions :
  bestActions nearTies (board "_________") (getValidActions (TicTacToe.new "_") None)
  = [4; 5; 7]%nat.
Proof. vm_compute. reflexivity. Qed.

(** C5: in the greedy branch, with a legal action to choose from, the
    actions the policy can return are the members of the tie set built by
    the single ascending pass; every legal action of maximal value is among
    them, and each of them is a legal action whose value is within twice the
    tolerance of the value of every legal action. *)
Theorem greedy_policy_returns_tie_set
    (a : Agent.t) (game : TicTacToe.t) (horizon : option nat) (state : list value) :
  greedy a ->
  (horizon = None -> player a = currentPlayer game) ->
  stateAt game horizon = Some state ->
  getValidActions game horizon <> [] ->
  let legal := getValidActions game horizon in
  (forall x, canReturn a game horizon x <-> In x (bestActions a state legal))
  /\ (forall x, In x legal ->
        (forall y, In y legal -> actionValue a state y <= actionValue a state x) ->
        canReturn a game horizon x)
  /\ (forall x, canReturn a game horizon x ->
        In x legal /\
        forall y, In y legal ->
          actionValue a state y - 2 * tolerance < actionValue a state x).
Proof.
  intros Hgreedy Hturn Hstate Hlegal legal.
  pose proof (canReturn_bestActions a game horizon state Hgreedy Hturn Hstate Hlegal) as Hset.
  destruct (bestActions_bounds a state legal Hlegal) as (_ & Hmax & Hnear).
  split; [done|]. split.
  - intros x Hx Htop. apply Hset. by apply Hmax.
  - intros x Hx. apply Hnear. by apply Hset.
Qed.

Lemma greedy_policy_returns_tie_set_witness :
  canReturn nearTies (TicTacToe.new "_") None 4
  /\ forall x, canReturn nearTies (TicTacToe.new "_") None x -> In x [4; 5; 7]%nat.
Proof.
  destruct (greedy_policy_returns_tie_set nearTies (TicTacToe.new "_") None
              (board "_________")) as (Hset & Hmax & _).
  - intros e [= <-]. apply Qle_refl.
  - reflexivity.
  - reflexivity.
  - discriminate.
  - split.
    + apply Hmax; [vm_compute; tauto|].
      intros y Hy. vm_compute in Hy.
      repeat (destruct Hy as [<- | Hy]; [vm_compute; discriminate|]). destruct Hy.
    + intros x Hx. rewrite <- nearTies_bestActions. exact (proj1 (Hset x) Hx).
Defined.

(** C5, three values less than the tolerance apart in ascending order: on
    the empty board with values 0, 0.00009 and 0.00018 for corner, edge and
    centre, the edge cells 1 and 3 are within the tolerance of the maximum,
    and the policy can return only 4, 5 and 7. *)
Lemma tie_set_is_not_near_max : ~ tieSetIsNearMax nearTies (TicTacToe.new "_").
Proof.
  intros H. specialize (H 1%nat).
  assert (nearMax nearTies (state (TicTacToe.new "_"))
            (getValidActions (TicTacToe.new "_") None) 1) as Hnear.
  { split; [vm_compute; tauto|].
    intros y Hy. vm_compute in Hy.
    repeat (destruct Hy as [<- | Hy]; [vm_compute; reflexivity|]). destruct Hy. }
  apply (proj2 H) in Hnear.
  assert (In 1%nat [4; 5; 7]%nat) as Hin.
  { rewrite <- nearTies_bestActions.
    refine (proj1 (canReturn_bestActions nearTies (TicTacToe.new "_") None
                     (board "_________") _ _ _ _ 1%nat) Hnear).
    - intros e [= <-]. apply Qle_refl.
    - reflexivity.
    - reflexivity.
    - discriminate. }
  simpl in Hin. intuition discriminate.
Qed.

End Policy.

(** *** The Q-learning learner *)

Section QLearning.

Import TicTacToe Agent EpsilonGreedyAgent.
Local Open Scope Q_scope.

Lemma learnQ_throws_on_full_board (r : random) :
  let out := QLearningAgent.learn qAgent drawGame Rewards.terminalOnly r in
  snd out = Some InvalidActionError
  /\ Q (fst (fst out)) = Q qAgent
  /\ epsilon (fst (fst out)) = Some (-1).
Proof. vm_compute. repeat split. Qed.

(** C3: the greedy action of an intermediate update is taken from the empty
    cells of the final board, not from those of [stateHistory[i + 2]]. On a
    drawn game the final board has no empty cell: [learn] throws
    [InvalidActionError] at the first intermediate ply and updates nothing.
    On the game X wins at the fifth ply, with the value 1 learnt for X's move
    to cell 1 in [stateHistory[2]], that move is legal and of maximal value
    there, the policy is asked among cells 5 to 8 only, and the value stored
    for the first ply is 1/2 where the update with the greedy value 1
    gives 1. *)
Theorem learnQ_greedy_action_from_final_board :
  (forall r,
      let out := QLearningAgent.learn qAgent drawGame Rewards.terminalOnly r in
      snd out = Some InvalidActionError
      /\ Q (fst (fst out)) = Q qAgent
      /\ epsilon (fst (fst out)) = Some (-1))
  /\ (let s2 := board "X__O_____" in
      stateHistory winGame !! 2%nat = Some s2
      /\ isEmptyCell "_" s2 1
      /\ (forall y, isEmptyCell "_" s2 y -> actionValue primed s2 y <= actionValue primed s2 1)
      /\ actionValue primed s2 1 == 1
      /\ getValidActions winGame (Some 2%nat) = [5; 6; 7; 8]%nat
      /\ Rewards.terminalOnly winGame "X" (Some 2%nat) == 1
      /\ getKey primed (board "_________") (Idx 0) = "_________0"
      /\ exists v,
           Q (fst (fst (QLearningAgent.learn primed winGame Rewards.terminalOnly (fun _ => 0))))
             !! "_________0" = Some v
           /\ v == 1 # 2
           /\ ~ v == tdUpdate 0 (alpha primed) 1 (discount primed) (actionValue primed s2 1)).
Proof.
  split; [apply learnQ_throws_on_full_board|].
  cbn zeta. split; [vm_compute; reflexivity|].
  split; [split; [lia|reflexivity]|].
  split.
  { intros y [Hy Hcell].
    do 9 (destruct y as [|y]; [first [discriminate Hcell | vm_compute; discriminate]|]).
    lia. }
  split; [vm_compute; reflexivity|].
  split; [vm_compute; reflexivity|].
  split; [vm_compute; reflexivity|].
  split; [vm_compute; reflexivity|].
  eexists. split; [vm_compute; reflexivity|].
  split; [reflexivity|]. vm_compute. discriminate.
Qed.

End QLearning.

(** ** Further properties of the board model *)

Section BoardIndices.

Import TicTacToe.



Lemma toActionIndex_from_skip (k : nat) (l rest : list value) (s : string) :
  Forall (fun v => loose_eq v Null = true) l ->
  toActionIndex_from k (l ++ Str s :: rest) = Some (k + length l).
Proof.
  intros Hl. revert k. induction Hl as [|v l Hv _ IH]; intros k; simpl.
  - f_equal. lia.
  - rewrite Hv. simpl. rewrite IH. f_equal. lia.
Qed.

(** X2: [toActionIndex] recovers the index from the marker array of
    [toActionArray] for every array index, that is, every index below
    [2^32 - 1], also one past the ninth cell, where the assignment extends
    the array. From [2^32 - 1] on the marker is a plain property of the
    array, which keeps its nine [null]s, and [toActionIndex] returns
    [null]. *)
Theorem toActionIndex_toActionArray (index : nat) :
  toActionIndex (toActionArray index)
  = if (N.of_nat index <? 4294967295)%N then Some index else None.
Proof.
  unfold toActionIndex, toActionArray, Js.set. rewrite length_replicate.
  destruct (Nat.ltb_spec index 9) as [Hlt|Hge].
  - assert ((N.of_nat index <? 4294967295)%N = true) as -> by (apply N.ltb_lt; lia).
    rewrite insert_replicate_lt by done.
    rewrite toActionIndex_from_skip; [by rewrite length_replicate|].
    apply Forall_replicate. reflexivity.
  - destruct (N.of_nat index <? 4294967295)%N; [|reflexivity].
    rewrite app_assoc. rewrite toActionIndex_from_skip.
    + rewrite length_app, !length_replicate. f_equal. lia.
    + apply Forall_app. split; apply Forall_replicate; reflexivity.
Qed.

Lemma toActionIndex_from_spec (k : nat) (a : list value) :
  match toActionIndex_from k a with
  | Some i =>
      k <= i /\ i - k < length a
      /\ loose_eq (get a (i - k)) Null = false
      /\ forall j, j < i - k -> loose_eq (get a j) Null = true
  | None => forall j, loose_eq (get a j) Null = true
  end.
Proof.
  revert k. induction a as [|v a IH]; intros k; simpl.
  - intros j. by destruct j.
  - destruct (loose_eq v Null) eqn:Hv; simpl.
    + specialize (IH (S k)). destruct (toActionIndex_from (S k) a) as [i|].
      * destruct IH as (Hk & Hlen & Hi & Hbefore).
        replace (i - k) with (S (i - S k)) by lia. cbn [length].
        split; [lia|]. split; [lia|]. split; [exact Hi|].
        intros [|j] Hj; [exact Hv|]. apply Hbefore. lia.
      * intros [|j]; [exact Hv|]. apply IH.
    + replace (k - k) with 0 by lia. cbn [length].
      split; [lia|]. split; [lia|]. split; [exact Hv|].
      intros j Hj. lia.
Qed.

(** X3: [toActionIndex] returns the first index that holds a string, every
    element before it being [null] or [undefined]; it returns [null] exactly
    when every element is [null] or [undefined], in particular on the empty
    array. *)
Theorem toActionIndex_first_marked (a : list value) :
  match toActionIndex a with
  | Some i =>
      i < length a
      /\ (exists s, get a i = Str s)
      /\ forall j, j < i -> get a j = Null \/ get a j = Undefined
  | None => forall j, get a j = Null \/ get a j = Undefined
  end.
Proof.
  assert (forall v, loose_eq v Null = true -> v = Null \/ v = Undefined) as Hnull.
  { intros [| |s]; simpl; intros H; try discriminate; tauto. }
  pose proof (toActionIndex_from_spec 0 a) as H. unfold toActionIndex.
  destruct (toActionIndex_from 0 a) as [i|].
  - rewrite Nat.sub_0_r in H. destruct H as (_ & Hlen & Hi & Hbefore).
    repeat split; [done| |].
    + destruct (get a i) as [| |s]; try discriminate Hi. by exists s.
    + intros j Hj. by apply Hnull, Hbefore.
  - intros j. apply Hnull, H.
Qed.

End BoardIndices.

Section BoardSymmetry.

Import TicTacToe.

Lemma rem4_cases (n : Z) :
  (0 <= n)%Z -> (Z.rem n 4 = 0 \/ Z.rem n 4 = 1 \/ Z.rem n 4 = 2 \/ Z.rem n 4 = 3)%Z.
Proof.
  intros Hn. pose proof (Z.rem_bound_pos n 4 Hn ltac:(lia)). lia.
Qed.

Lemma rot90_rem (s : list value) (n n' : Z) :
  Z.rem n 4 = Z.rem n' 4 -> rot90 s (Some n) = rot90 s (Some n').
Proof. intros H. unfold rot90. by rewrite H. Qed.

(** X4: on a nine-cell board, rotating by [m] and then by [n] quarter turns,
    both non-negative, is rotating by [m + n]. *)
Theorem rot90_compose (s : list value) (m n : Z) :
  length s = 9 -> (0 <= m)%Z -> (0 <= n)%Z ->
  rot90 (rot90 s (Some m)) (Some n) = rot90 s (Some (m + n)%Z).
Proof.
  intros Hs Hm Hn.
  destruct (nine_cells s Hs) as (c0 & c1 & c2 & c3 & c4 & c5 & c6 & c7 & c8 & ->).
  assert (Z.rem (m + n) 4 = Z.rem (Z.rem m 4 + Z.rem n 4) 4) as Hsum.
  { rewrite (Z.rem_mod_nonneg (m + n) 4), (Z.rem_mod_nonneg m 4),
      (Z.rem_mod_nonneg n 4) by lia.
    pose proof (Z.mod_pos_bound m 4 ltac:(lia)).
    pose proof (Z.mod_pos_bound n 4 ltac:(lia)).
    rewrite Z.rem_mod_nonneg by lia. apply Zplus_mod. }
  rewrite (rot90_rem _ (m + n) _ Hsum).
  rewrite (rot90_rem _ m (Z.rem m 4)), (rot90_rem _ n (Z.rem n 4))
    by (symmetry; apply Z.rem_rem; lia).
  destruct (rem4_cases m Hm) as [-> | [-> | [-> | ->]]];
    destruct (rem4_cases n Hn) as [-> | [-> | [-> | ->]]]; reflexivity.
Qed.

Lemma rot90_compose_witness :
  rot90 (rot90 (board "XO_X__O__") (Some 3%Z)) (Some 6%Z)
  = rot90 (board "XO_X__O__") (Some 9%Z).
Proof. apply (rot90_compose (board "XO_X__O__") 3 6); [reflexivity|lia|lia]. Defined.

(** X5: for a negative count that is not a multiple of four, and for an
    omitted count, [rot90] returns the empty array, whatever the state. *)
Theorem rot90_negative_count (s : list value) (n : Z) :
  (n < 0)%Z -> (n mod 4 <> 0)%Z ->
  rot90 s (Some n) = [] /\ rot90 s None = [].
Proof.
  intros Hneg Hmod. split; [|reflexivity]. unfold rot90.
  assert (Z.rem n 4 = - Z.rem (- n) 4)%Z as Hopp by (rewrite Z.rem_opp_l by lia; lia).
  pose proof (Z.rem_bound_pos (- n) 4 ltac:(lia) ltac:(lia)) as Hb.
  assert (Z.rem n 4 <> 0)%Z as Hrem.
  { intros H. apply Hmod. apply Z.rem_divide in H; [|lia].
    by apply Z.mod_divide. }
  destruct (Z.eqb_spec (Z.rem n 4) 0); [lia|].
  destruct (Z.eqb_spec (Z.rem n 4) 1); [lia|].
  destruct (Z.eqb_spec (Z.rem n 4) 2); [lia|].
  destruct (Z.eqb_spec (Z.rem n 4) 3); [lia|]. reflexivity.
Qed.

Lemma rot90_negative_count_witness :
  rot90 (board "XO_X__O__") (Some (-1)%Z) = [] /\ rot90 (board "XO_X__O__") None = [].
Proof. apply rot90_negative_count; [lia|]. vm_compute. discriminate. Defined.

(** X6: the action index recovered from the transformed marker array points
    at the cell the action's cell has moved to: under each of the eight
    symmetries, the transformed board holds at the transformed index what the
    board holds at the action. *)
Theorem rotated_index_follows_cell (s : list value) (action : nat) (mirrored : bool) (k : Z) :
  length s = 9 -> action < 9 -> In k turns ->
  exists action',
    toActionIndex (variantState (toActionArray action) mirrored k) = Some action'
    /\ action' < 9
    /\ get (variantState s mirrored k) action' = get s action.
Proof.
  intros Hs Ha Hk.
  destruct (nine_cells s Hs) as (c0 & c1 & c2 & c3 & c4 & c5 & c6 & c7 & c8 & ->).
  destruct Hk as [<- | [<- | [<- | [<- | []]]]]; destruct mirrored;
    do 9 (destruct action as [|action];
          [eexists; split; [reflexivity|]; split; [lia|reflexivity]|]);
    lia.
Qed.

Lemma rotated_index_follows_cell_witness :
  exists action',
    toActionIndex (variantState (toActionArray 2) true 1) = Some action'
    /\ action' < 9
    /\ get (variantState (board "XO_X__O__") true 1) action' = get (board "XO_X__O__") 2.
Proof.
  apply rotated_index_follows_cell; [reflexivity|lia|simpl; tauto].
Defined.

End BoardSymmetry.

Section BoardOutcome.

Import TicTacToe.

Lemma wonb_nine (d0 d1 d2 d3 d4 d5 d6 d7 d8 : value) (t : string) :
  wonb [d0; d1; d2; d3; d4; d5; d6; d7; d8] t
  = (let b v := loose_eq v (Str t) in
     b d0 && b d1 && b d2 || (b d3 && b d4 && b d5 || (b d6 && b d7 && b d8 ||
     (b d0 && b d3 && b d6 || (b d1 && b d4 && b d7 || (b d2 && b d5 && b d8 ||
     (b d0 && b d4 && b d8 || (b d2 && b d4 && b d6 || false))))))))%bool.
Proof. reflexivity. Qed.

Lemma fullb_nine (nll : string) (d0 d1 d2 d3 d4 d5 d6 d7 d8 : value) :
  fullb nll [d0; d1; d2; d3; d4; d5; d6; d7; d8]
  = (let e v := negb (loose_eq v (Str nll)) in
     e d0 && (e d1 && (e d2 && (e d3 && (e d4 && (e d5 && (e d6 && (e d7 &&
     (e d8 && true)))))))))%bool.
Proof. reflexivity. Qed.

(** The eight images of a board, cell by cell. *)
Lemma variantState_nine (c0 c1 c2 c3 c4 c5 c6 c7 c8 : value) (mirrored : bool) (k : Z) :
  In k turns ->
  exists p,
    variantState [c0; c1; c2; c3; c4; c5; c6; c7; c8] mirrored k = p
    /\ (forall t, wonb p t = wonb [c0; c1; c2; c3; c4; c5; c6; c7; c8] t)
    /\ (forall nll, fullb nll p = fullb nll [c0; c1; c2; c3; c4; c5; c6; c7; c8]).
Proof.
  intros Hk.
  destruct Hk as [<- | [<- | [<- | [<- | []]]]]; destruct mirrored;
    match goal with
    | |- exists p, variantState ?s ?m ?k = p /\ _ =>
        let v := eval vm_compute in (variantState s m k) in exists v
    end;
    (split; [reflexivity|]; split; intros t;
     [rewrite !wonb_nine|rewrite !fullb_nine]; cbv beta zeta;
     destruct (loose_eq c0 (Str t)), (loose_eq c1 (Str t)), (loose_eq c2 (Str t)),
              (loose_eq c3 (Str t)), (loose_eq c4 (Str t)), (loose_eq c5 (Str t)),
              (loose_eq c6 (Str t)), (loose_eq c7 (Str t)), (loose_eq c8 (Str t));
     reflexivity).
Qed.

Lemma wonb_variant (s : list value) (t : string) (mirrored : bool) (k : Z) :
  length s = 9 -> In k turns -> wonb (variantState s mirrored k) t = wonb s t.
Proof.
  intros Hs Hk.
  destruct (nine_cells s Hs) as (c0 & c1 & c2 & c3 & c4 & c5 & c6 & c7 & c8 & ->).
  destruct (variantState_nine c0 c1 c2 c3 c4 c5 c6 c7 c8 mirrored k Hk)
    as (p & -> & Hwon & _).
  apply Hwon.
Qed.

Lemma fullb_variant (nll : string) (s : list value) (mirrored : bool) (k : Z) :
  length s = 9 -> In k turns -> fullb nll (variantState s mirrored k) = fullb nll s.
Proof.
  intros Hs Hk.
  destruct (nine_cells s Hs) as (c0 & c1 & c2 & c3 & c4 & c5 & c6 & c7 & c8 & ->).
  destruct (variantState_nine c0 c1 c2 c3 c4 c5 c6 c7 c8 mirrored k Hk)
    as (p & -> & _ & Hfull).
  apply Hfull.
Qed.

(** The outcome is a function of the three boolean tests, as long as the
    two tokens do not both own a line. *)
Lemma checkTermination_by_tests (g g' : t) (h h' : option nat) :
  (wonb (state g) "X" && wonb (state g) "O")%bool = false ->
  wonb (state g') "X" = wonb (state g) "X" ->
  wonb (state g') "O" = wonb (state g) "O" ->
  fullb (nll g') (state g') = fullb (nll g) (state g) ->
  checkTermination g' h' = checkTermination g h.
Proof.
  intros Hboth HX HO Hfull.
  destruct (checkTermination_cases g h) as (H1 & H2 & H3 & H4).
  destruct (checkTermination_cases g' h') as (H1' & H2' & H3' & H4').
  cbn zeta in *. rewrite HX, HO, Hfull in *.
  destruct (wonb (state g) "X"), (wonb (state g) "O"); try discriminate Hboth.
  - by rewrite H1, H1'.
  - by rewrite H2, H2'.
  - destruct (fullb (nll g) (state g)).
    + by rewrite (proj2 H3), (proj2 H3').
    + by rewrite (proj2 H4), (proj2 H4').
Qed.

(** X7: on a nine-cell board on which X and O do not both own a line,
    [checkTermination] gives the same outcome for the board and for each of
    its eight symmetric images. *)
Theorem checkTermination_symmetric (g : t) (mirrored : bool) (k : Z) (h h' : option nat) :
  length (state g) = 9 -> In k turns ->
  ~ (won (state g) "X" /\ won (state g) "O") ->
  checkTermination (withState g (variantState (state g) mirrored k)) h'
  = checkTermination g h.
Proof.
  intros Hs Hk Hboth. apply checkTermination_by_tests; cbn [state nll withState].
  - destruct (wonb (state g) "X") eqn:HX, (wonb (state g) "O") eqn:HO; try done.
    exfalso. apply Hboth. by rewrite <- !wonb_won.
  - by apply wonb_variant.
  - by apply wonb_variant.
  - by apply fullb_variant.
Qed.

Lemma checkTermination_symmetric_witness :
  checkTermination (withState winGame (variantState (state winGame) true 3)) None
  = checkTermination winGame None.
Proof.
  apply (checkTermination_symmetric winGame true 3 None None).
  - reflexivity.
  - simpl. tauto.
  - intros [_ HO]. apply wonb_won in HO. vm_compute in HO. discriminate.
Defined.

Lemma checkTermination_sound_aux (g : t) (h : option nat) :
  let out := checkTermination g h in
  (out = "X" \/ out = "O" \/ out = "draw" \/ out = "")
  /\ (out = "X" -> won (state g) "X")
  /\ (out = "O" -> won (state g) "O").
Proof.
  cbn zeta. rewrite <- !wonb_won. rewrite checkTermination_closed. cbn zeta.
  unfold wonb. cbn [existsb lines]. rewrite !regroup.
  generalize (ownsb (state g) "X") (ownsb (state g) "O") (fullb (nll g) (state g)).
  intros x o f.
  destruct (x (0, 1, 2) || x (0, 3, 6))%bool, (o (0, 1, 2) || o (0, 3, 6))%bool,
           (x (3, 4, 5) || x (1, 4, 7))%bool, (o (3, 4, 5) || o (1, 4, 7))%bool,
           (x (6, 7, 8) || x (2, 5, 8))%bool, (o (6, 7, 8) || o (2, 5, 8))%bool,
           (x (0, 4, 8) || x (2, 4, 6))%bool, (o (0, 4, 8) || o (2, 4, 6))%bool, f;
    cbn; repeat split; intros; (tauto || discriminate || done).
Qed.

(** X8: [checkTermination] returns one of ["X"], ["O"], ["draw"] and the
    empty string, and it returns a token only when that token owns a
    line. *)
Theorem checkTermination_sound (g : t) (h : option nat) :
  let out := checkTermination g h in
  (out = "X" \/ out = "O" \/ out = "draw" \/ out = "")
  /\ (out = "X" -> won (state g) "X")
  /\ (out = "O" -> won (state g) "O").
Proof. exact (checkTermination_sound_aux g h). Qed.

End BoardOutcome.

Section GameInvariants.

Import TicTacToe.

Lemma move_cases (g : t) (index : Z) :
  (move g index = (g, Some InvalidActionError)
   /\ ((index < 0 \/ 8 < index)%Z
       \/ get (state g) (Z.to_nat index) <> Str (nll g)
       \/ checkTermination g None <> ""))
  \/ (move g index
      = (mk (nll g) (<[Z.to_nat index := Str (currentPlayer g)]> (state g))
            (if String.eqb (currentPlayer g) "X" then "O" else "X")
            (stateHistory g ++ [<[Z.to_nat index := Str (currentPlayer g)]> (state g)])
            (actionHistory g ++ [Z.to_nat index]), None)
      /\ (0 <= index <= 8)%Z
      /\ state g !! Z.to_nat index = Some (Str (nll g))
      /\ checkTermination g None = "").
Proof.
  unfold move.
  destruct ((index >=? 9)%Z || (index <? 0)%Z)%bool eqn:Hrange.
  { left. split; [done|]. left. apply orb_true_iff in Hrange as [H|H]; lia. }
  apply orb_false_iff in Hrange as [Hhi Hlo].
  destruct (neq (get (state g) (Z.to_nat index)) (Str (nll g))) eqn:Hcell.
  { left. split; [done|]. right; left. by apply neq_Str. }
  destruct (truthy (checkTermination g None)) eqn:Hterm.
  { left. split; [done|]. right; right. by apply truthy_iff. }
  right.
  assert (get (state g) (Z.to_nat index) = Str (nll g)) as Hget.
  { apply loose_eq_Str. unfold neq in Hcell. by apply negb_false_iff in Hcell. }
  assert (state g !! Z.to_nat index = Some (Str (nll g))) as Hlook.
  { unfold get in Hget.
    destruct (state g !! Z.to_nat index) as [v|]; [by rewrite Hget|discriminate Hget]. }
  assert (checkTermination g None = "") as Hnone.
  { unfold truthy in Hterm. apply negb_false_iff in Hterm. by apply String.eqb_eq. }
  split; [|repeat split; try done; lia].
  unfold Js.set. apply lookup_lt_Some in Hlook.
  apply Nat.ltb_lt in Hlook. by rewrite Hlook.
Qed.

Lemma gameInv_new (marker : string) : gameInv (new marker).
Proof.
  assert (cellsOf marker (replicate 9 (Str marker))) as Hcells.
  { split; [reflexivity|]. apply Forall_replicate. by left. }
  unfold gameInv, new. cbn [state nll stateHistory actionHistory currentPlayer].
  repeat split; try done; try apply Hcells.
  by apply Forall_singleton.
Qed.

Lemma gameInv_move (g : t) (index : Z) : gameInv g -> gameInv (fst (move g index)).
Proof.
  intros Hinv.
  destruct (move_cases g index) as [[-> _] | (-> & Hrange & Hcell & Hnone)]; [done|].
  destruct Hinv as ((Hlen & Hcells) & Hhist & Hacts & Hcount & Hlast & Hturn).
  cbn [fst]. unfold gameInv. cbn [state nll stateHistory actionHistory currentPlayer].
  assert (cellsOf (nll g) (<[Z.to_nat index := Str (currentPlayer g)]> (state g))) as Hnew.
  { split; [by rewrite length_insert|]. apply Forall_insert; [done|].
    rewrite Hturn. destruct (Nat.even _); tauto. }
  split; [done|]. split; [apply Forall_app; split; [done|by apply Forall_singleton]|].
  split; [apply Forall_app; split; [done|apply Forall_singleton; lia]|].
  split; [rewrite !length_app; simpl; lia|].
  split; [apply last_snoc|].
  rewrite length_app. cbn [length]. rewrite Nat.add_1_r, Nat.even_succ, <- Nat.negb_even.
  rewrite Hturn. by destruct (Nat.even (length (actionHistory g))).
Qed.

Lemma gameInv_playFrom (g : t) (moves : list Z) : gameInv g -> gameInv (playFrom g moves).
Proof.
  revert g. induction moves as [|m moves IH]; intros g Hinv; [done|].
  simpl. apply IH. by apply gameInv_move.
Qed.

Lemma playFrom_nll (g : t) (moves : list Z) : nll (playFrom g moves) = nll g.
Proof.
  revert g. induction moves as [|m moves IH]; intros g; [done|].
  simpl. rewrite IH.
  by destruct (move_cases g m) as [[-> _] | (-> & _)].
Qed.

(** X9: after any sequence of calls of [move] on a fresh game, accepted or
    not, the board has nine cells, each empty or a token, and so has every
    snapshot; every recorded action is below nine; there is one snapshot more
    than actions; the last snapshot is the board; and it is X's turn exactly
    when the number of actions is even. *)
Theorem reachable_game_invariant (marker : string) (moves : list Z) :
  gameInv (playFrom (new marker) moves).
Proof. apply gameInv_playFrom, gameInv_new. Qed.

(** X12: the histories are append-only: after any sequence of calls of
    [move], the earlier state and action histories are prefixes of the new
    ones, and the empty marker is unchanged. *)
Theorem histories_append_only (g : t) (moves : list Z) :
  stateHistory g `prefix_of` stateHistory (playFrom g moves)
  /\ actionHistory g `prefix_of` actionHistory (playFrom g moves)
  /\ nll (playFrom g moves) = nll g.
Proof.
  revert g. induction moves as [|m moves IH]; intros g; [done|].
  simpl. destruct (IH (fst (move g m))) as (Hs & Ha & Hn).
  destruct (move_cases g m) as [[Hm _] | (Hm & _)]; rewrite Hm in *; cbn [fst] in *;
    [done|].
  cbn [stateHistory actionHistory nll] in *.
  split; [|split; [|done]].
  - etransitivity; [|exact Hs]. by apply prefix_app_r.
  - etransitivity; [|exact Ha]. by apply prefix_app_r.
Qed.

(** X11: [move] accepts an index exactly when it is non-negative, is one of
    the actions [getValidActions] lists, and the game has no outcome yet. *)
Theorem move_accepts_valid_actions (g : t) (index : Z) (horizon : option nat) :
  snd (move g index) = None
  <-> (0 <= index)%Z
      /\ In (Z.to_nat index) (getValidActions g horizon)
      /\ checkTermination g None = "".
Proof.
  destruct (getValidActions_current g horizon) as [Hvalid _]. rewrite Hvalid.
  unfold isEmptyCell.
  destruct (move_cases g index) as [[-> Hbad] | (-> & Hrange & Hcell & Hnone)]; cbn [snd].
  - split; [discriminate|]. intros (Hpos & [Hlt Hcell] & Hnone).
    destruct Hbad as [Hr | [Hc | Ht]]; [lia|done|done].
  - split; [|done]. intros _. split; [lia|]. split; [|done].
    split; [lia|]. unfold get. by rewrite Hcell.
Qed.

End GameInvariants.

Section GameCounts.

Import TicTacToe.

Lemma countToken_insert (s : list value) (i : nat) (c v : value) (t : string) :
  s !! i = Some c ->
  countToken (<[i := v]> s) t + (if loose_eq c (Str t) then 1 else 0)
  = countToken s t + (if loose_eq v (Str t) then 1 else 0).
Proof.
  unfold countToken. revert i. induction s as [|d s IH]; intros i Hi; [done|].
  destruct i as [|i]; simpl in *.
  - injection Hi as ->.
    destruct (loose_eq c (Str t)), (loose_eq v (Str t)); simpl; lia.
  - specialize (IH i Hi). destruct (loose_eq d (Str t)); simpl; lia.
Qed.

Lemma getValidActions_count (g : t) (horizon : option nat) :
  length (state g) = 9 ->
  length (getValidActions g horizon) = countToken (state g) (nll g).
Proof.
  intros Hs. unfold getValidActions, countToken.
  destruct (nine_cells _ Hs) as (c0 & c1 & c2 & c3 & c4 & c5 & c6 & c7 & c8 & ->).
  cbn [seq List.filter get lookup list_lookup].
  destruct (loose_eq c0 _), (loose_eq c1 _), (loose_eq c2 _), (loose_eq c3 _),
           (loose_eq c4 _), (loose_eq c5 _), (loose_eq c6 _), (loose_eq c7 _),
           (loose_eq c8 _); reflexivity.
Qed.

(** What the counts of tokens keep, when the empty marker is neither token. *)
Lemma counts_move (g : t) (index : Z) :
  nll g <> "X" -> nll g <> "O" ->
  gameInv g ->
  countInv g -> countInv (fst (move g index)).
Proof.
  intros HnX HnO Hinv Hcounts.
  destruct (move_cases g index) as [[-> _] | (-> & Hrange & Hcell & Hnone)]; [done|].
  unfold countInv in *. cbn [fst state nll actionHistory] in *.
  destruct Hinv as (_ & _ & _ & _ & _ & Hturn).
  destruct Hcounts as (HX & HO & HE).
  pose proof (countToken_insert _ _ _ (Str (currentPlayer g)) "X" Hcell) as HiX.
  pose proof (countToken_insert _ _ _ (Str (currentPlayer g)) "O" Hcell) as HiO.
  pose proof (countToken_insert _ _ _ (Str (currentPlayer g)) (nll g) Hcell) as HiE.
  rewrite length_app. cbn [length loose_eq] in *.
  rewrite Nat.add_1_r, Nat.even_succ, <- Nat.negb_even.
  rewrite String.eqb_refl in HiE.
  apply String.eqb_neq in HnX, HnO. rewrite HnX in HiX. rewrite HnO in HiO.
  rewrite Hturn in *.
  destruct (Nat.even (length (actionHistory g))) eqn:Hpar.
  - rewrite (String.eqb_sym "X" (nll g)), HnX in HiE. cbn in *. lia.
  - rewrite (String.eqb_sym "O" (nll g)), HnO in HiE. cbn in *. lia.
Qed.

(** X10: with an empty marker that is neither token, after any sequence of
    calls of [move] on a fresh game the X and O cells number as many as the
    actions, X has as many cells as O after an even number of actions and one
    more after an odd number, the legal actions and the actions taken add up
    to nine, and no more than nine moves are ever accepted. *)
Theorem reachable_game_counts (marker : string) (moves : list Z) (horizon : option nat) :
  marker <> "X" -> marker <> "O" ->
  let g := playFrom (new marker) moves in
  let k := length (actionHistory g) in
  countToken (state g) "X" + countToken (state g) "O" = k
  /\ countToken (state g) "X"
     = countToken (state g) "O" + (if Nat.even k then 0 else 1)
  /\ length (getValidActions g horizon) + k = 9
  /\ k <= 9.
Proof.
  intros HnX HnO.
  assert (forall g, nll g = marker -> gameInv g -> countInv g ->
            let g' := playFrom g moves in
            gameInv g' /\ nll g' = marker /\ countInv g') as Hall.
  { induction moves as [|m moves IH]; intros g Hn Hinv Hc; [done|].
    simpl. apply IH.
    - pose proof (playFrom_nll g [m]) as H. simpl in H. congruence.
    - by apply gameInv_move.
    - apply counts_move; try done; congruence. }
  destruct (Hall (new marker)) as (Hinv & Hn & HX & HO & HE).
  - reflexivity.
  - apply gameInv_new.
  - unfold countInv. cbn [actionHistory new length state nll]. unfold countToken.
    apply String.eqb_neq in HnX, HnO.
    cbn [replicate List.filter loose_eq].
    rewrite String.eqb_refl, HnX, HnO. done.
  - cbn zeta. rewrite getValidActions_count by apply Hinv.
    repeat split; try done; lia.
Qed.

Lemma reachable_game_counts_witness :
  let g := playFrom (new "_") [4; 4; 0; 9; 8]%Z in
  let k := length (actionHistory g) in
  countToken (state g) "X" + countToken (state g) "O" = k
  /\ countToken (state g) "X"
     = countToken (state g) "O" + (if Nat.even k then 0 else 1)
  /\ length (getValidActions g None) + k = 9
  /\ k <= 9.
Proof. apply (reachable_game_counts "_" [4; 4; 0; 9; 8]%Z None); discriminate. Defined.

End GameCounts.

(** *** The outcome on the boards reached in play *)

Section OutcomeInPlay.

Import TicTacToe.

Lemma get_insert (s : list value) (m i : nat) (v : value) :
  m < length s -> get (<[m := v]> s) i = if decide (i = m) then v else get s i.
Proof.
  intros Hm. unfold get. destruct (decide (i = m)) as [-> | Hne].
  - by rewrite list_lookup_insert_eq.
  - by rewrite list_lookup_insert_ne.
Qed.

(** A line owned after a move is owned by the mover, or was owned before. *)
Lemma owns_after_move (s : list value) (m : nat) (p t : string) (l : nat * nat * nat) :
  m < length s -> owns (<[m := Str p]> s) t l -> t = p \/ owns s t l.
Proof.
  intros Hm. destruct l as [[a b] c]. unfold owns. rewrite !get_insert by done.
  destruct (decide (a = m)), (decide (b = m)), (decide (c = m));
    intros (Ha & Hb & Hc); try (left; congruence); by right.
Qed.

Lemma oneWinner_move (g : t) (index : Z) :
  oneWinner (state g) -> oneWinner (state (fst (move g index))).
Proof.
  intros Hone.
  destruct (move_cases g index) as [[-> _] | (-> & Hrange & Hcell & Hnone)]; [done|].
  cbn [fst state].
  destruct (checkTermination_cases g None) as (_ & _ & _ & Hempty).
  apply Hempty in Hnone as (_ & HX & HO).
  apply wonb_not_won in HX, HO.
  apply lookup_lt_Some in Hcell.
  intros [(l & Hl & Ho) (l' & Hl' & Ho')].
  apply owns_after_move in Ho as [Hp | Ho]; [|apply HX; by exists l|done].
  apply owns_after_move in Ho' as [Hp' | Ho']; [|apply HO; by exists l'|done].
  congruence.
Qed.

Lemma oneWinner_new (marker : string) : marker <> "X" -> oneWinner (state (new marker)).
Proof.
  intros HnX [(l & Hl & Ho) _]. cbn [state new] in Ho.
  simpl in Hl.
  destruct Hl as [<- | [<- | [<- | [<- | [<- | [<- | [<- | [<- | []]]]]]]]];
    destruct Ho as [Ho _]; cbv in Ho; congruence.
Qed.

(** What every game reached in play keeps, when the empty marker is neither
    token. *)
Lemma play_invariant (marker : string) (moves : list Z) :
  marker <> "X" -> marker <> "O" ->
  let g := playFrom (new marker) moves in
  gameInv g /\ nll g = marker /\ countInv g /\ oneWinner (state g).
Proof.
  intros HnX HnO.
  assert (forall g, nll g = marker -> gameInv g -> countInv g -> oneWinner (state g) ->
            let g' := playFrom g moves in
            gameInv g' /\ nll g' = marker /\ countInv g' /\ oneWinner (state g')) as Hall.
  { induction moves as [|m moves IH]; intros g Hn Hinv Hc Hone; [done|].
    simpl. apply IH.
    - pose proof (playFrom_nll g [m]) as H. simpl in H. congruence.
    - by apply gameInv_move.
    - apply counts_move; try done; congruence.
    - by apply oneWinner_move. }
  apply Hall.
  - reflexivity.
  - apply gameInv_new.
  - unfold countInv. cbn [actionHistory new length state nll]. unfold countToken.
    apply String.eqb_neq in HnX, HnO.
    cbn [replicate List.filter loose_eq].
    rewrite String.eqb_refl, HnX, HnO. done.
  - by apply oneWinner_new.
Qed.

(** Two different lines owned by a token cover five of its cells at least. *)
Lemma two_lines_five_cells (s : list value) (t : string) (l l' : nat * nat * nat) :
  length s = 9 -> In l lines -> In l' lines -> l <> l' ->
  owns s t l -> owns s t l' -> 5 <= countToken s t.
Proof.
  intros Hs Hl Hl' Hne Ho Ho'.
  destruct (nine_cells s Hs) as (c0 & c1 & c2 & c3 & c4 & c5 & c6 & c7 & c8 & ->).
  unfold countToken. cbn [List.filter].
  assert (forall c, c = Str t -> loose_eq c (Str t) = true) as Hyes
    by (intros c ->; apply String.eqb_refl).
  simpl in Hl, Hl'.
  destruct Hl as [<- | [<- | [<- | [<- | [<- | [<- | [<- | [<- | []]]]]]]]];
    destruct Hl' as [<- | [<- | [<- | [<- | [<- | [<- | [<- | [<- | []]]]]]]]];
    try (by destruct Hne);
    destruct Ho as (H1 & H2 & H3), Ho' as (H4 & H5 & H6);
    cbv [get lookup list_lookup] in H1, H2, H3, H4, H5, H6;
    apply Hyes in H1, H2, H3, H4, H5, H6;
    rewrite ?H1, ?H2, ?H3, ?H4, ?H5, ?H6;
    repeat match goal with
           | |- context [if loose_eq ?c (Str t) then _ else _] =>
               destruct (loose_eq c (Str t))
           end;
    cbn [length]; lia.
Qed.

Lemma five_cells_full (g : t) (tok : string) :
  nll g <> "X" -> nll g <> "O" -> gameInv g -> countInv g ->
  tok = "X" \/ tok = "O" ->
  5 <= countToken (state g) tok -> full (nll g) (state g).
Proof.
  intros HnX HnO Hinv (HXO & Hpar & Hempty) Htok Hfive.
  assert (countToken (state g) (nll g) = 0) as Hnone.
  { destruct (Nat.even (length (actionHistory g))), Htok as [-> | ->]; lia. }
  rewrite <- (getValidActions_count g None) in Hnone by apply Hinv.
  apply length_zero_iff_nil in Hnone.
  intros i Hi Hcell.
  destruct (getValidActions_current g None) as [Hvalid _].
  assert (In i (getValidActions g None)) as Hin by (apply Hvalid; by split).
  by rewrite Hnone in Hin.
Qed.

(** In play, a won board that has an empty cell has exactly one owned
    line. *)
Lemma won_in_play (marker : string) (moves : list Z) (tok : string) :
  marker <> "X" -> marker <> "O" ->
  let g := playFrom (new marker) moves in
  tok = "X" \/ tok = "O" ->
  won (state g) tok -> ~ full (nll g) (state g) -> exactlyOneLine (state g) tok.
Proof.
  intros HnX HnO g Htok (l & Hl & Ho) Hnotfull.
  destruct (play_invariant marker moves HnX HnO) as (Hinv & Hn & Hc & Hone).
  fold g in Hinv, Hn, Hc, Hone.
  exists l. split; [done|]. split; [done|].
  intros l' tok' Htok' Hl' Ho'.
  destruct (decide (l' = l)) as [Heq | Hne]; [done|]. exfalso.
  destruct (decide (tok' = tok)) as [-> | Hother].
  - apply Hnotfull. apply (five_cells_full g tok); try done; try congruence.
    apply (two_lines_five_cells (state g) tok l' l); try done. apply Hinv.
  - apply Hone.
    destruct Htok as [-> | ->], Htok' as [-> | ->]; try done;
      split; (by exists l) || (by exists l').
Qed.

(** C9: [checkTermination] returns a token when some line is fully owned by
    it and none by the other token, in particular when exactly one of the
    eight lines is owned; it returns ["draw"] exactly when no cell is empty
    and no line is won, and the empty string exactly when a cell is empty
    and no line is won; on a full board with a won line it returns a winner,
    never ["draw"]. On every board reached in play, with an empty marker that
    is neither token, these cases are all there is: X and O never both own a
    line; a token is returned exactly when it owns exactly one line, or owns
    a line of a full board; and the empty string is returned exactly in the
    remaining case, when no token owns exactly one line and the board is
    not full. *)
Theorem checkTermination_outcome (g : t) (horizon : option nat) :
  let s := state g in
  let out := checkTermination g horizon in
  (won s "X" -> ~ won s "O" -> out = "X")
  /\ (won s "O" -> ~ won s "X" -> out = "O")
  /\ (forall tok, (tok = "X" \/ tok = "O") -> exactlyOneLine s tok -> out = tok)
  /\ (out = "draw" <-> full (nll g) s /\ ~ won s "X" /\ ~ won s "O")
  /\ (out = "" <-> (exists i, i < 9 /\ get s i = Str (nll g)) /\ ~ won s "X" /\ ~ won s "O")
  /\ (full (nll g) s -> won s "X" \/ won s "O" ->
      out <> "draw" /\ out <> "" /\ (out = "X" \/ out = "O") /\ won s out)
  /\ (forall marker moves, marker <> "X" -> marker <> "O" ->
      g = playFrom (new marker) moves ->
      ~ (won s "X" /\ won s "O")
      /\ (forall tok, (tok = "X" \/ tok = "O") ->
            (out = tok <-> exactlyOneLine s tok \/ (full (nll g) s /\ won s tok)))
      /\ (out = "" <->
            (~ exists tok, (tok = "X" \/ tok = "O") /\ exactlyOneLine s tok)
            /\ ~ (full (nll g) s /\ ~ won s "X" /\ ~ won s "O")
            /\ ~ (full (nll g) s /\ (won s "X" \/ won s "O")))).
Proof.
  intros s out.
  destruct (checkTermination_by_lines g horizon) as (HX & HO & Hone & Hdraw & Hnone & Hfull).
  fold s out in HX, HO, Hone, Hdraw, Hnone, Hfull.
  destruct (checkTermination_sound_aux g horizon) as (Hvalues & HwX & HwO).
  fold out in Hvalues, HwX, HwO.
  do 5 (split; [assumption|]).
  split.
  { intros Hf Hw. destruct (Hfull Hf Hw) as [Hnd Hne].
    split; [done|]. split; [done|].
    destruct Hvalues as [HoX | [HoO | [Hod | Hoe]]]; try done.
    - split; [by left|]. rewrite HoX. by apply HwX.
    - split; [by right|]. rewrite HoO. by apply HwO. }
  intros marker moves HnX HnO Hg.
  destruct (play_invariant marker moves HnX HnO) as (Hinv & Hn & Hc & Hboth).
  rewrite <- Hg in Hinv, Hn, Hc, Hboth. fold s in Hboth.
  assert (forall tok, tok = "X" \/ tok = "O" -> won s tok -> out = tok) as Hwin.
  { intros tok [-> | ->] Hw; [apply HX|apply HO]; try done;
      intros Hw'; apply Hboth; by split. }
  assert (forall tok, tok = "X" \/ tok = "O" -> out = tok -> won s tok) as Hsound.
  { intros tok [-> | ->] Ho; [by apply HwX|by apply HwO]. }
  assert (full (nll g) s \/ ~ full (nll g) s) as Hdec.
  { destruct (fullb (nll g) s) eqn:Hb.
    - left. by apply fullb_full.
    - right. intros Hf. apply fullb_full in Hf. congruence. }
  assert (forall tok, tok = "X" \/ tok = "O" -> won s tok -> ~ full (nll g) s ->
            exactlyOneLine s tok) as Hexact.
  { intros tok Htok Hw Hnf. subst s. rewrite Hg in *.
    by apply (won_in_play marker moves tok). }
  split; [exact Hboth|]. split.
  - intros tok Htok. split.
    + intros Ho. pose proof (Hsound tok Htok Ho) as Hw.
      destruct Hdec as [Hf | Hnf]; [right; by split|left; by apply Hexact].
    + intros [Hex | [Hf Hw]]; [by apply Hone|by apply Hwin].
  - split.
    + intros Ho. apply Hnone in Ho as ((i & Hi & Hcell) & HnwX & HnwO).
      assert (~ full (nll g) s) as Hnf by (intros Hf; by apply (Hf i)).
      split; [|split; tauto].
      intros (tok & Htok & l & Hl & Hown & _).
      destruct Htok as [-> | ->]; [apply HnwX|apply HnwO]; by exists l.
    + intros (Hnex & Hnd & Hnw).
      destruct Hvalues as [HoX | [HoO | [Hod | Hoe]]]; [| | |done]; exfalso.
      * pose proof (Hsound "X" (or_introl eq_refl) HoX) as Hw.
        destruct Hdec as [Hf | Hnf]; [apply Hnw; tauto|].
        apply Hnex. exists "X". split; [by left|]. apply Hexact; tauto.
      * pose proof (Hsound "O" (or_intror eq_refl) HoO) as Hw.
        destruct Hdec as [Hf | Hnf]; [apply Hnw; tauto|].
        apply Hnex. exists "O". split; [by right|]. apply Hexact; tauto.
      * apply Hnd. by apply Hdraw.
Qed.

(** The board XXX/XOO/XOO reached by nine legal moves: the last move
    completes the top row and the left column at once, the board is full,
    and the outcome is ["X"]. *)
Lemma checkTermination_outcome_witness :
  let g := playFrom (new "_") [1; 4; 2; 5; 3; 7; 6; 8; 0]%Z in
  state g = board "XXXXOOXOO"
  /\ ~ (won (state g) "X" /\ won (state g) "O")
  /\ (checkTermination g None = "X"
      <-> exactlyOneLine (state g) "X" \/ (full (nll g) (state g) /\ won (state g) "X")).
Proof.
  intros g. split; [vm_compute; reflexivity|].
  destruct (checkTermination_outcome g None) as (_ & _ & _ & _ & _ & _ & Hplay).
  destruct (Hplay "_" [1; 4; 2; 5; 3; 7; 6; 8; 0]%Z) as (Hboth & Htok & _);
    [discriminate|discriminate|reflexivity|].
  split; [exact Hboth|]. apply Htok. by left.
Defined.

End OutcomeInPlay.

Section RewardProperties.

Import TicTacToe.

(** X13: [terminalOnly] is zero-sum between X and O; for X it is 1 exactly
    when the outcome is X, -1 exactly when it is O, and 0 exactly on a draw
    or an unfinished game; the horizon passed to it has no effect. *)
Theorem terminalOnly_zero_sum (g : t) (horizon : option nat) :
  let rX := Rewards.terminalOnly g "X" horizon in
  let rO := Rewards.terminalOnly g "O" horizon in
  (rX + rO == 0)%Q
  /\ (rX = 1%Q <-> checkTermination g None = "X")
  /\ (rX = (-1)%Q <-> checkTermination g None = "O")
  /\ (rX = 0%Q <-> checkTermination g None = "draw" \/ checkTermination g None = "")
  /\ Rewards.terminalOnly g "X" horizon = Rewards.terminalOnly g "X" None.
Proof.
  cbn zeta. unfold Rewards.terminalOnly.
  replace (checkTermination g horizon) with (checkTermination g None) by reflexivity.
  destruct (checkTermination_sound_aux g None) as ([-> | [-> | [-> | ->]]] & _);
    cbn; repeat split; intros; try done; try discriminate; try tauto;
    intuition discriminate.
Qed.

End RewardProperties.

Section Keys.

Import TicTacToe Agent.

Lemma string_of_nat_inj (m n : nat) : string_of_nat m = string_of_nat n -> m = n.
Proof.
  unfold string_of_nat. intros H.
  assert (forall k, Nat.to_uint k <> Decimal.Nil) as Hnonnil.
  { intros k. rewrite <- (DecimalNat.Unsigned.of_to k) at 1.
    rewrite DecimalNat.Unsigned.to_of. apply DecimalFacts.unorm_nonnil. }
  apply DecimalNat.Unsigned.to_uint_inj.
  pose proof (NilZero.usu _ (Hnonnil m)) as Hm.
  pose proof (NilZero.usu _ (Hnonnil n)) as Hn.
  rewrite H in Hm. congruence.
Qed.

Lemma append_inj (s1 s2 t1 t2 : string) :
  String.length s1 = String.length s2 ->
  (s1 ++ t1 = s2 ++ t2)%string -> s1 = s2 /\ t1 = t2.
Proof.
  revert s2. induction s1 as [|c s1 IH]; intros [|d s2] Hlen Heq; try discriminate Hlen.
  - done.
  - change (String c (s1 ++ t1) = String d (s2 ++ t2))%string in Heq.
    injection Heq as -> Heq. injection Hlen as Hlen.
    destruct (IH s2 Hlen Heq) as [-> ->]. done.
Qed.

Lemma join_inj (s s' : list value) :
  Forall (fun c => exists ch, c = Str (String ch "")) s ->
  Forall (fun c => exists ch, c = Str (String ch "")) s' ->
  join s = join s' -> s = s'.
Proof.
  intros Hs. revert s'. induction Hs as [|c s [ch ->] _ IH]; intros s' Hs' Heq.
  - destruct Hs' as [|c' s' [ch' ->] _]; [done|discriminate Heq].
  - destruct Hs' as [|c' s' [ch' ->] Hs']; [discriminate Heq|].
    change (String ch (join s) = String ch' (join s')) in Heq.
    injection Heq as -> Heq. f_equal. by apply IH.
Qed.

(** X14: [_hash] is injective on boards of nine one-character cells and
    numeric actions: equal keys come from equal boards and equal actions. *)
Theorem hash_injective (s s' : list value) (action action' : nat) :
  wellFormed s -> wellFormed s' ->
  _hash s (Idx action) = _hash s' (Idx action') ->
  s = s' /\ action = action'.
Proof.
  intros [Hlen Hcells] [Hlen' Hcells'] Heq. unfold _hash in Heq.
  apply append_inj in Heq as [Hjoin Hact].
  - split; [by apply join_inj|]. by apply string_of_nat_inj.
  - rewrite !join_length by done. congruence.
Qed.

Lemma wellFormed_board (cells : string) :
  String.length cells = 9 -> wellFormed (board cells).
Proof.
  intros Hlen. unfold wellFormed, board. split.
  - rewrite length_map. clear -Hlen.
    revert Hlen. generalize 9. induction cells as [|c cells IH]; intros n Hn; simpl in *.
    + done.
    + destruct n; [discriminate|]. f_equal. apply IH. by injection Hn.
  - apply Forall_map. apply Forall_forall. intros ch _. by exists ch.
Qed.

Lemma hash_injective_witness :
  board "XO_X__O__" = board "XO_X__O__" /\ 4 = 4.
Proof.
  apply hash_injective; [by apply wellFormed_board..|reflexivity].
Defined.

(** X15: the key [getKey] returns is a key of the table, or it is the hash
    of the state and action it was given. *)
Theorem getKey_existing_or_literal (a : Agent.t) (state : list value) (action : index) :
  has a (getKey a state action) = true \/ getKey a state action = _hash state action.
Proof.
  unfold getKey.
  destruct (first_match a (rotatedKey _ _) _) as [key|] eqn:Hfirst.
  { left. by apply first_match_Some in Hfirst as [Hhas _]. }
  cbn zeta.
  destruct (first_match a (mirroredKey _ _) _) as [key|] eqn:Hsecond.
  { left. by apply first_match_Some in Hsecond as [Hhas _]. }
  by right.
Qed.

Lemma has_insert (a : Agent.t) (key key' : string) (v : number) :
  has (set_Q a (<[key := v]> (Q a))) key' = (String.eqb key key' || has a key')%bool.
Proof.
  unfold has. cbn [Q set_Q]. destruct (String.eqb_spec key key') as [<- | Hne].
  - by rewrite lookup_insert_eq.
  - by rewrite lookup_insert_ne.
Qed.

(** The first match after [key] has been written: the old first match if
    there was one and [key] is in the table, else [key] if some candidate is
    [key]. *)
Lemma first_match_insert_hit (a : Agent.t) (key key0 : string) (v : number)
    (candidate : Z -> string) (ns : list Z) :
  first_match a candidate ns = Some key0 ->
  has a key = true ->
  first_match (set_Q a (<[key := v]> (Q a))) candidate ns = Some key0.
Proof.
  intros Hfirst Hkey. induction ns as [|n ns IH]; simpl in *; [done|].
  rewrite has_insert. destruct (has a (candidate n)) eqn:Hn.
  - by rewrite orb_true_r.
  - rewrite orb_false_r. destruct (String.eqb_spec key (candidate n)) as [-> | _].
    + congruence.
    + by apply IH.
Qed.

Lemma first_match_insert_miss (a : Agent.t) (key : string) (v : number)
    (candidate : Z -> string) (ns : list Z) :
  first_match a candidate ns = None ->
  first_match (set_Q a (<[key := v]> (Q a))) candidate ns = Some key
  \/ first_match (set_Q a (<[key := v]> (Q a))) candidate ns = None.
Proof.
  intros Hfirst. induction ns as [|n ns IH]; simpl in *; [by right|].
  rewrite has_insert. destruct (has a (candidate n)) eqn:Hn; [discriminate|].
  rewrite orb_false_r. destruct (String.eqb_spec key (candidate n)) as [-> | _].
  - by left.
  - by apply IH.
Qed.

(** X16: once a value is stored under the key [getKey] returned, [getKey]
    returns that same key for the same state and action, the value read back
    under it is the stored one, and no key has left the table. *)
Theorem getKey_stable_after_write
    (a : Agent.t) (state : list value) (action : index) (v : number) :
  let key := getKey a state action in
  let a' := set_Q a (<[key := v]> (Q a)) in
  getKey a' state action = key
  /\ valueOf a' (getKey a' state action) = v
  /\ forall key', has a key' = true -> has a' key' = true.
Proof.
  cbn zeta.
  assert (getKey (set_Q a (<[getKey a state action := v]> (Q a))) state action
          = getKey a state action) as Hsame.
  { unfold getKey at 1 3.
    destruct (first_match a (rotatedKey _ _) _) as [key|] eqn:Hfirst.
    { pose proof (first_match_Some _ _ _ _ Hfirst) as [Hhas _].
      unfold getKey. rewrite Hfirst.
      by rewrite (first_match_insert_hit a key key v _ _ Hfirst Hhas). }
    cbn zeta.
    destruct (first_match a (mirroredKey _ _) _) as [key|] eqn:Hsecond.
    { pose proof (first_match_Some _ _ _ _ Hsecond) as [Hhas _].
      unfold getKey. rewrite Hfirst, Hsecond. cbn zeta.
      destruct (first_match_insert_miss a key v _ _ Hfirst) as [-> | ->]; [done|].
      by rewrite (first_match_insert_hit a key key v _ _ Hsecond Hhas). }
    unfold getKey. rewrite Hfirst. cbn zeta. rewrite Hsecond.
    destruct (first_match_insert_miss a (_hash state action) v _ _ Hfirst)
      as [-> | ->]; [done|].
    by destruct (first_match_insert_miss a (_hash state action) v _ _ Hsecond)
      as [-> | ->]. }
  split; [done|]. split.
  - rewrite Hsame. unfold valueOf. cbn [Q set_Q]. by rewrite lookup_insert_eq.
  - intros key' Hhas. rewrite has_insert, Hhas. apply orb_true_r.
Qed.

End Keys.

Section PolicyProperties.

Import TicTacToe Agent EpsilonGreedyAgent.
Local Open Scope Q_scope.


Lemma aligned_iff (a : Agent.t) (game : TicTacToe.t) (horizon : option nat) :
  (bool_decide (horizon = None)
   && negb (String.eqb (player a) (currentPlayer game)))%bool = false
  <-> inTurn a game horizon.
Proof.
  unfold inTurn. destruct horizon as [h|]; simpl.
  - split; [discriminate|done].
  - rewrite negb_false_iff, String.eqb_eq. split; [by intros -> _|by intros ->].
Qed.





Lemma policy_throws_aux (a : Agent.t) (game : TicTacToe.t) (horizon : option nat)
    (r : random) (e : error) :
  policy a game horizon r = Throw e
  <-> (e = MisalignedPlayerError /\ ~ inTurn a game horizon)
      \/ (e = InvalidActionError /\ inTurn a game horizon
          /\ getValidActions game horizon = [])
      \/ (e = TypeError /\ inTurn a game horizon
          /\ getValidActions game horizon <> []
          /\ explores a (r 0%nat) = false
          /\ stateAt game horizon = None).
Proof.
  unfold policy. destruct (_ && _)%bool eqn:Hturn.
  { assert (~ inTurn a game horizon) as Hn.
    { intros H. apply aligned_iff in H. congruence. }
    split; [intros [= <-]; by left|].
    intros [[-> _] | [(_ & H & _) | (_ & H & _)]]; done. }
  apply aligned_iff in Hturn.
  destruct (getValidActions game horizon) as [|y legal] eqn:Hlegal.
  { cbn. split; [intros [= <-]; right; by left|].
    intros [[_ H] | [(-> & _) | (_ & _ & H & _)]]; done. }
  cbn [length Nat.eqb Math_random].
  destruct (explores a (r 0%nat)) eqn:Hex.
  { split; [discriminate|].
    intros [[_ H] | [(_ & _ & H) | (_ & _ & _ & H & _)]]; done. }
  destruct (stateAt game horizon) as [s|] eqn:Hs.
  - destruct (0 <? length (bestActions a s (y :: legal)))%nat.
    + split; [discriminate|].
      intros [[_ H] | [(_ & _ & H) | (_ & _ & _ & _ & H)]]; done.
    + split; [discriminate|].
      intros [[_ H] | [(_ & _ & H) | (_ & _ & _ & _ & H)]]; done.
  - split; [intros [= <-]; right; right; done|].
    intros [[_ H] | [(_ & _ & H) | (-> & _)]]; done.
Qed.

(** X18: [policy] throws in exactly three cases: a MisalignedPlayerError when
    it is called on the live state out of turn; an InvalidActionError when it
    is in turn and no action is legal; and a TypeError when it is in turn,
    some action is legal, it does not explore, and the horizon points at no
    snapshot of the history. *)
Theorem policy_throws (a : Agent.t) (game : TicTacToe.t) (horizon : option nat)
    (r : random) (e : error) :
  policy a game horizon r = Throw e
  <-> (e = MisalignedPlayerError /\ ~ inTurn a game horizon)
      \/ (e = InvalidActionError /\ inTurn a game horizon
          /\ getValidActions game horizon = [])
      \/ (e = TypeError /\ inTurn a game horizon
          /\ getValidActions game horizon <> []
          /\ explores a (r 0%nat) = false
          /\ stateAt game horizon = None).
Proof. apply policy_throws_aux. Qed.



End PolicyProperties.

Section QLearningFrame.

Import TicTacToe Agent EpsilonGreedyAgent.

Lemma sameButQ_refl (a : Agent.t) : sameButQ a a.
Proof. by repeat split. Qed.

Lemma sameButQ_trans (a b c : Agent.t) : sameButQ a b -> sameButQ b c -> sameButQ a c.
Proof.
  intros (H1 & H2 & H3 & H4 & H5 & H6 & H7 & H8) (K1 & K2 & K3 & K4 & K5 & K6 & K7 & K8).
  repeat split; try congruence. intros key Hk. by apply K8, H8.
Qed.

Lemma sameButQ_insert (a : Agent.t) (key : string) (v : number) :
  sameButQ a (set_Q a (<[key := v]> (Q a))).
Proof.
  repeat split. intros key' Hk. rewrite has_insert, Hk. apply orb_true_r.
Qed.

Lemma intermediate_sameButQ (game : TicTacToe.t) (playerChoice : string)
    (rewardFunc : rewardFunction) (steps : list nat) (a : Agent.t) (r : random) :
  sameButQ a (fst (fst (QLearningAgent.intermediate game playerChoice rewardFunc a r steps))).
Proof.
  revert a r. induction steps as [|i steps IH]; intros a r; simpl.
  - apply sameButQ_refl.
  - destruct (stateHistory game !! i) as [s|]; [|apply sameButQ_refl].
    destruct (policy a game (Some (i + 2)) r) as [[futureAction r']|e];
      [|apply sameButQ_refl].
    destruct (stateHistory game !! (i + 2)) as [s2|]; [|apply sameButQ_refl].
    eapply sameButQ_trans; [|apply IH]. apply sameButQ_insert.
Qed.

Lemma updateQ_sameButQ (a : Agent.t) (game : TicTacToe.t) (playerChoice : string)
    (rewardFunc : rewardFunction) (r : random) :
  sameButQ a (fst (fst (QLearningAgent.updateQ a game playerChoice rewardFunc r))).
Proof.
  unfold QLearningAgent.updateQ.
  pose proof (intermediate_sameButQ game playerChoice rewardFunc
                (upward (if String.eqb playerChoice "X" then 0 else 1)
                   (if movedLast playerChoice game
                    then (Z.of_nat (length (stateHistory game)) - 2)%Z
                    else (Z.of_nat (length (stateHistory game)) - 3)%Z)) a r) as Hloop.
  destruct (QLearningAgent.intermediate _ _ _ _ _ _) as [[a1 r1] [e|]]; [done|].
  cbn [fst] in Hloop.
  destruct (if (_ <? 0)%Z then None else _) as [s|]; [|done].
  cbn [fst]. eapply sameButQ_trans; [exact Hloop|]. apply sameButQ_insert.
Qed.

Lemma learnQ_frame (a : Agent.t) (game : TicTacToe.t)
    (rewardFunc : rewardFunction) (r : random) :
  let out := QLearningAgent.learn a game rewardFunc r in
  let a' := fst (fst out) in
  player a' = player a /\ defaultQ a' = defaultQ a /\ countQ a' = countQ a
  /\ discount a' = discount a /\ alpha a' = alpha a /\ rewards a' = rewards a
  /\ (forall key, has a key = true -> has a' key = true)
  /\ (snd out = None -> epsilon a' = epsilon a)
  /\ (snd out <> None ->
      epsilon a' = Some (-1)%Q /\ checkTermination game None <> "")
  /\ (checkTermination game None = "" -> out = (a, r, None)).
Proof.
  cbn zeta. unfold QLearningAgent.learn.
  destruct (truthy (checkTermination game None)) eqn:Hterm.
  2:{ cbn [fst snd]. repeat split; try done. }
  apply truthy_iff in Hterm.
  pose proof (updateQ_sameButQ (set_epsilon a (Some (-1)%Q)) game "X" rewardFunc r) as HX.
  destruct (QLearningAgent.updateQ (set_epsilon a (Some (-1)%Q)) game "X" rewardFunc r)
    as [[a1 r1] [e|]]; cbn [fst snd] in *.
  { destruct HX as (H1 & H2 & H3 & H4 & H5 & H6 & H7 & H8).
    repeat split; try done. }
  pose proof (updateQ_sameButQ a1 game "O" rewardFunc r1) as HO.
  pose proof (sameButQ_trans _ _ _ HX HO) as Hboth.
  destruct (QLearningAgent.updateQ a1 game "O" rewardFunc r1)
    as [[a2 r2] [e|]]; cbn [fst snd] in *;
    destruct Hboth as (H1 & H2 & H3 & H4 & H5 & H6 & H7 & H8);
    repeat split; try done.
Qed.

(** X20: [QLearningAgent.learn] changes nothing of the agent but the table
    [Q], which loses no key, and [epsilon]: it restores [epsilon] when it
    returns normally, and when it throws [epsilon] is left at -1 and the game
    has an outcome. On a game without outcome it returns the agent and the
    random numbers unchanged. *)
Theorem learnQ_touches_only_the_table (a : Agent.t) (game : TicTacToe.t)
    (rewardFunc : rewardFunction) (r : random) :
  let out := QLearningAgent.learn a game rewardFunc r in
  let a' := fst (fst out) in
  player a' = player a /\ defaultQ a' = defaultQ a /\ countQ a' = countQ a
  /\ discount a' = discount a /\ alpha a' = alpha a /\ rewards a' = rewards a
  /\ (forall key, has a key = true -> has a' key = true)
  /\ (snd out = None -> epsilon a' = epsilon a)
  /\ (snd out <> None ->
      epsilon a' = Some (-1)%Q /\ checkTermination game None <> "")
  /\ (checkTermination game None = "" -> out = (a, r, None)).
Proof. apply learnQ_frame. Qed.

End QLearningFrame.

Section LoopBounds.

Lemma range2_In (n start i : nat) :
  In i (range2 n start) -> exists k, k < n /\ i = start + 2 * k.
Proof.
  revert start. induction n as [|n IH]; intros start; simpl; [intros []|].
  intros [<- | Hi].
  - exists 0. lia.
  - destruct (IH _ Hi) as (k & Hk & ->). exists (S k). lia.
Qed.

Lemma upward_bound (start : nat) (end_ : Z) (i : nat) :
  In i (upward start end_) -> (Z.of_nat i < end_)%Z.
Proof.
  unfold upward. intros Hi. apply range2_In in Hi as (k & Hk & ->).
  pose proof (Z.mul_div_le (end_ - Z.of_nat start + 1) 2 ltac:(lia)). lia.
Qed.

Lemma downward_bound (from : Z) (i : nat) :
  In i (downward from) -> (Z.of_nat i <= from)%Z.
Proof.
  unfold downward. intros Hi. apply in_map_iff in Hi as (k & <- & Hk).
  apply List.in_seq in Hk.
  pose proof (Z.mul_div_le (from + 2) 2 ltac:(lia)). lia.
Qed.

End LoopBounds.

Section MonteCarloFrame.

Import TicTacToe Agent MonteCarloAgent.

Lemma grownFrom_refl (a : Agent.t) : grownFrom a a.
Proof. by repeat split. Qed.

Lemma grownFrom_trans (a b c : Agent.t) : grownFrom a b -> grownFrom b c -> grownFrom a c.
Proof.
  intros (H1 & H2 & H3 & H4 & H5 & H6 & H7) (K1 & K2 & K3 & K4 & K5 & K6 & K7).
  repeat split; try congruence.
  - intros key Hk. by apply K6, H6.
  - intros key. etransitivity; [apply H7|apply K7].
Qed.

Lemma average_grownFrom (a : Agent.t) (key : string) (g : number) :
  grownFrom a (average a key g) /\ rewards (average a key g) = rewards a.
Proof.
  split; [|done]. repeat split.
  - intros key' Hk. unfold has, average in *. cbn [Q set_Q set_countQ].
    destruct (decide (key = key')) as [<- | Hne].
    + by rewrite lookup_insert_eq.
    + by rewrite lookup_insert_ne.
  - intros key'. destruct (decide (key' = key)) as [-> | Hne].
    + destruct (average_same a key g) as (-> & _). lia.
    + destruct (average_other a key' key g) as (_ & Hc); [done|].
      unfold visits. by rewrite Hc.
Qed.

Lemma average_countedKeysValued (a : Agent.t) (key : string) (g : number) :
  countedKeysValued a -> countedKeysValued (average a key g).
Proof.
  intros Hinv key' n. destruct (decide (key' = key)) as [-> | Hne].
  - destruct (average_same a key g) as (Hn & _ & HQ & _).
    intros Hc. unfold visits in Hn. rewrite Hc in Hn. split; [|lia].
    unfold has. by destruct HQ as [v ->].
  - destruct (average_other a key' key g) as (HQ & Hc); [done|].
    rewrite Hc. intros Hn. destruct (Hinv key' n Hn) as [Hhas Hpos].
    split; [|done]. unfold has in *. by rewrite HQ.
Qed.

Lemma assign_agent (l : learner) (key : string) (t : option number) :
  exists g, agent (assign l key t) = average (agent l) key g.
Proof.
  unfold assign. destruct (storedValue l key), t; by eexists.
Qed.

Lemma assign_keeps_nan (l : learner) (key key' : string) (t : option number) :
  storedValue l key = None -> storedValue (assign l key' t) key = None.
Proof.
  unfold storedValue at 1.
  destruct (has (agent l) key) eqn:Hhas; [|discriminate].
  destruct (bool_decide (key ∈ nan l)) eqn:Hnan; [|discriminate].
  intros _. apply bool_decide_eq_true in Hnan.
  assert (has (agent (assign l key' t)) key = true) as Hhas'.
  { destruct (assign_agent l key' t) as [g ->].
    by apply (average_grownFrom (agent l) key' g). }
  assert (key ∈ nan (assign l key' t)) as Hnan'.
  { unfold assign. destruct (storedValue l key') eqn:Hv, t; cbn [nan]; try set_solver.
    destruct (decide (key = key')) as [<- | Hne]; [|set_solver].
    unfold storedValue in Hv. rewrite Hhas in Hv.
    rewrite bool_decide_eq_true_2 in Hv by done. discriminate Hv. }
  unfold storedValue. rewrite Hhas'. by rewrite bool_decide_eq_true_2.
Qed.

Lemma backward_grownFrom (game : TicTacToe.t) (steps : list nat) (l : learner)
    (totalReward : option number) (j : Z) :
  let l' := fst (backward game l totalReward j steps) in
  grownFrom (agent l) (agent l') /\ rewards (agent l') = rewards (agent l)
  /\ (countedKeysValued (agent l) -> countedKeysValued (agent l'))
  /\ (forall key, storedValue l key = None -> storedValue l' key = None).
Proof.
  revert l totalReward j.
  induction steps as [|i steps IH]; intros l totalReward j; simpl.
  - split; [apply grownFrom_refl|done].
  - destruct (stateHistory game !! i) as [s|]; [|split; [apply grownFrom_refl|done]].
    match goal with
    | |- context [backward game (assign l ?k ?t) ?t ?j' steps] =>
        destruct (IH (assign l k t) t j') as (Hg & Hr & Hc & Hn);
        destruct (assign_agent l k t) as [g Ha];
        pose proof (assign_keeps_nan l) as Hn0;
        specialize (fun key => Hn0 key k t);
        destruct (average_grownFrom (agent l) k g) as (Hg0 & Hr0);
        pose proof (average_countedKeysValued (agent l) k g) as Hc0
    end.
    rewrite Ha in Hg, Hr, Hc.
    split; [by eapply grownFrom_trans|]. split; [congruence|].
    split; [tauto|]. intros key Hk. by apply Hn, Hn0.
Qed.

Lemma backward_returns (game : TicTacToe.t) (steps : list nat) (l : learner)
    (totalReward : option number) (j : Z) :
  stepsInHistory game steps -> snd (backward game l totalReward j steps) = None.
Proof.
  revert l totalReward j.
  induction steps as [|i steps IH]; intros l totalReward j Hsteps; simpl; [done|].
  apply Forall_cons in Hsteps as [Hi Hsteps].
  apply lookup_lt_is_Some in Hi as [s ->]. by apply IH.
Qed.

Lemma learn_steps_in_history (game : TicTacToe.t) (who : string) :
  let len := Z.of_nat (length (stateHistory game)) in
  stepsInHistory game
    (downward ((if movedLast who game then len - 1 else len - 2) - 1)%Z).
Proof.
  cbn zeta. apply Forall_forall. intros i Hi.
  apply list_elem_of_In, downward_bound in Hi.
  destruct (movedLast who game); lia.
Qed.

(** X21: [MonteCarloAgent.learn] never throws. It keeps the parameters of
    the agent and loses no key and no visit; it keeps that every counted key
    has a value and a positive count; and an entry of [Q] that is [NaN]
    stays [NaN]. On a game without outcome it only appends the reward of the
    player to move; on a finished game it leaves the rewards empty. *)
Theorem learnMC_grows_the_tables (l : learner) (game : TicTacToe.t)
    (rewardFunc : rewardFunction) :
  let out := learn l game rewardFunc in
  let l' := fst out in
  let reward := rewardFunc game (currentPlayer game) (Some (length (stateHistory game))) in
  snd out = None
  /\ grownFrom (agent l) (agent l')
  /\ (countedKeysValued (agent l) -> countedKeysValued (agent l'))
  /\ (forall key, storedValue l key = None -> storedValue l' key = None)
  /\ (checkTermination game None = "" ->
      out = (with_rewards l (rewards (agent l) ++ [reward]), None))
  /\ (checkTermination game None <> "" -> rewards (agent l') = []).
Proof.
  cbn zeta. unfold learn.
  destruct (truthy (checkTermination game None)) eqn:Hterm.
  2:{ cbn [fst snd]. apply negb_false_iff, String.eqb_eq in Hterm.
      split; [done|]. split; [by repeat split|].
      split; [intros H key n Hn; exact (H key n Hn)|].
      split; [intros key Hk; exact Hk|]. split; [done|]. by intros []. }
  apply truthy_iff in Hterm.
  match goal with
  | |- context [backward game ?l0 ?t ?j ?steps] =>
      destruct (backward_grownFrom game steps l0 t j) as (Hg & Hr & Hc & Hn);
      pose proof (backward_returns game steps l0 t j
                    (learn_steps_in_history game _)) as Hret;
      destruct (backward game l0 t j steps) as [l1 [e|]]
  end; cbn [fst snd] in *; [discriminate Hret|].
  destruct Hg as (H1 & H2 & H3 & H4 & H5 & H6 & H7).
  split; [done|]. split; [by repeat split|]. split; [exact Hc|].
  split; [intros key Hk; by apply Hn|]. split; [by intros ?|done].
Qed.

End MonteCarloFrame.

Section KeysInvariant.

Import TicTacToe Agent EpsilonGreedyAgent.

Lemma cellsOf_wellFormed (marker : string) (s : list value) :
  String.length marker = 1 -> cellsOf marker s -> wellFormed s.
Proof.
  intros Hlen [Hnine Hcells]. split; [done|].
  destruct marker as [|ch [|? ?]]; try discriminate Hlen.
  eapply Forall_impl; [exact Hcells|].
  intros c [-> | [-> | ->]]; by eexists.
Qed.

Lemma reachable_historyWellFormed (marker : string) (moves : list Z) :
  String.length marker = 1 -> historyWellFormed (playFrom (new marker) moves).
Proof.
  intros Hlen.
  destruct (gameInv_playFrom (new marker) moves (gameInv_new marker))
    as (_ & Hhist & Hacts & Hcount & _).
  rewrite playFrom_nll in Hhist. cbn [nll new] in Hhist.
  split; [|done].
  eapply Forall_impl; [exact Hhist|]. intros s. by apply cellsOf_wellFormed.
Qed.

Lemma history_key_hashed (g : TicTacToe.t) (a : Agent.t) (i : nat) (s : list value) :
  historyWellFormed g -> keysHashed a ->
  stateHistory g !! i = Some s -> i < length (actionHistory g) ->
  String.length (getKey a s (actionAt (actionHistory g) i)) = 10.
Proof.
  intros (Hstates & Hacts & _) Hkeys Hs Hi.
  apply lookup_lt_is_Some in Hi as [x Hx]. unfold actionAt. rewrite Hx.
  apply getKey_keysHashed; [done| |].
  - rewrite Forall_forall in Hstates. apply Hstates.
    by eapply list_elem_of_lookup_2.
  - rewrite Forall_forall in Hacts. apply Hacts.
    by eapply list_elem_of_lookup_2.
Qed.

Lemma average_keysHashed (a : Agent.t) (key : string) (g : number) :
  keysHashed a -> String.length key = 10 -> keysHashed (MonteCarloAgent.average a key g).
Proof. intros Hkeys Hlen. by apply (set_Q_keysHashed a key). Qed.

Lemma backward_keysHashed (g : TicTacToe.t) (steps : list nat)
    (l : MonteCarloAgent.learner) (totalReward : option number) (j : Z) :
  historyWellFormed g ->
  (forall i, In i steps -> i < length (actionHistory g)) ->
  keysHashed (MonteCarloAgent.agent l) ->
  keysHashed (MonteCarloAgent.agent (fst (MonteCarloAgent.backward g l totalReward j steps))).
Proof.
  intros Hg. revert l totalReward j.
  induction steps as [|i steps IH]; intros l totalReward j Hsteps Hkeys; simpl; [done|].
  destruct (stateHistory g !! i) as [s|] eqn:Hs; [|done].
  apply IH; [intros k Hk; apply Hsteps; by right|].
  match goal with
  | |- context [MonteCarloAgent.assign l ?k ?t] =>
      destruct (assign_agent l k t) as [q ->]
  end.
  apply average_keysHashed; [done|].
  apply (history_key_hashed g _ i s); try done. apply Hsteps. by left.
Qed.

Lemma intermediate_keysHashed (g : TicTacToe.t) (playerChoice : string)
    (rewardFunc : rewardFunction) (steps : list nat) (a : Agent.t) (r : random) :
  historyWellFormed g ->
  (forall i, In i steps -> i < length (actionHistory g)) ->
  keysHashed a ->
  keysHashed (fst (fst (QLearningAgent.intermediate g playerChoice rewardFunc a r steps))).
Proof.
  intros Hg. revert a r.
  induction steps as [|i steps IH]; intros a r Hsteps Hkeys; simpl; [done|].
  destruct (stateHistory g !! i) as [s|] eqn:Hs; [|done].
  destruct (policy a g (Some (i + 2)) r) as [[futureAction r']|e]; [|done].
  destruct (stateHistory g !! (i + 2)) as [s2|]; [|done].
  apply IH; [intros k Hk; apply Hsteps; by right|].
  apply set_Q_keysHashed; [done|].
  apply (history_key_hashed g a i s); try done. apply Hsteps. by left.
Qed.

Lemma updateQ_keysHashed (a : Agent.t) (g : TicTacToe.t) (playerChoice : string)
    (rewardFunc : rewardFunction) (r : random) :
  historyWellFormed g -> keysHashed a ->
  keysHashed (fst (fst (QLearningAgent.updateQ a g playerChoice rewardFunc r))).
Proof.
  intros Hg Hkeys. unfold QLearningAgent.updateQ.
  set (start := if String.eqb playerChoice "X" then 0 else 1).
  set (end_ := if movedLast playerChoice g
               then (Z.of_nat (length (stateHistory g)) - 2)%Z
               else (Z.of_nat (length (stateHistory g)) - 3)%Z).
  assert (end_ <= Z.of_nat (length (actionHistory g)) - 1)%Z as Hend.
  { destruct Hg as (_ & _ & Hlen). unfold end_. rewrite Hlen.
    destruct (movedLast playerChoice g); lia. }
  pose proof (intermediate_keysHashed g playerChoice rewardFunc (upward start end_) a r Hg)
    as Hloop.
  destruct (QLearningAgent.intermediate _ _ _ _ _ _) as [[a1 r1] [e|]];
    cbn [fst] in *.
  - apply Hloop; [|done]. intros i Hi. apply upward_bound in Hi. lia.
  - assert (keysHashed a1) as Hkeys1.
    { apply Hloop; [|done]. intros i Hi. apply upward_bound in Hi. lia. }
    destruct (Z.ltb_spec end_ 0) as [Hneg|Hpos]; [done|].
    destruct (stateHistory g !! Z.to_nat end_) as [s|] eqn:Hs; [|done].
    cbn [fst]. apply set_Q_keysHashed; [done|].
    apply (history_key_hashed g a1 _ s); try done. lia.
Qed.

(** X22: after any sequence of calls of [move] on a fresh game with a
    one-character marker, both learners keep every key of the table ten
    characters long. *)
Theorem learners_keep_keys_hashed (marker : string) (moves : list Z)
    (l : MonteCarloAgent.learner) (a : Agent.t)
    (rewardFunc : rewardFunction) (r : random) :
  String.length marker = 1 ->
  keysHashed (MonteCarloAgent.agent l) ->
  keysHashed a ->
  let g := playFrom (new marker) moves in
  keysHashed (MonteCarloAgent.agent (fst (MonteCarloAgent.learn l g rewardFunc)))
  /\ keysHashed (fst (fst (QLearningAgent.learn a g rewardFunc r))).
Proof.
  intros Hmarker Hkeysl Hkeys g.
  pose proof (reachable_historyWellFormed marker moves Hmarker) as Hg. fold g in Hg.
  split.
  - unfold MonteCarloAgent.learn.
    destruct (truthy (checkTermination g None)); [|done].
    match goal with
    | |- context [MonteCarloAgent.backward g ?l0 ?t ?j ?steps] =>
        pose proof (backward_keysHashed g steps l0 t j Hg) as Hback;
        destruct (MonteCarloAgent.backward g l0 t j steps) as [l1 [e|]]
    end; cbn [fst] in *.
    + apply Hback; [|done]. intros i Hi. apply downward_bound in Hi.
      destruct Hg as (_ & _ & Hlen). rewrite Hlen in Hi.
      destruct (movedLast _ g); lia.
    + assert (keysHashed (MonteCarloAgent.agent l1)) as H1; [|exact H1].
      apply Hback; [|done]. intros i Hi. apply downward_bound in Hi.
      destruct Hg as (_ & _ & Hlen). rewrite Hlen in Hi.
      destruct (movedLast _ g); lia.
  - unfold QLearningAgent.learn.
    destruct (truthy (checkTermination g None)); [|done].
    pose proof (updateQ_keysHashed (set_epsilon a (Some (-1)%Q)) g "X" rewardFunc r Hg Hkeys)
      as HX.
    destruct (QLearningAgent.updateQ (set_epsilon a (Some (-1)%Q)) g "X" rewardFunc r)
      as [[a1 r1] [e|]]; cbn [fst] in *; [done|].
    pose proof (updateQ_keysHashed a1 g "O" rewardFunc r1 Hg HX) as HO.
    destruct (QLearningAgent.updateQ a1 g "O" rewardFunc r1)
      as [[a2 r2] [e|]]; cbn [fst] in *; done.
Qed.

Lemma primed_keysHashed : keysHashed primed.
Proof.
  intros key. unfold has, primed. cbn [Q set_Q].
  destruct (decide (key = "X__O_____1")) as [-> | Hne]; [reflexivity|].
  by rewrite lookup_singleton_ne.
Qed.

Lemma learners_keep_keys_hashed_witness :
  keysHashed (MonteCarloAgent.agent
                (fst (MonteCarloAgent.learn (numeric primed) winGame Rewards.terminalOnly)))
  /\ keysHashed (fst (fst (QLearningAgent.learn primed winGame Rewards.terminalOnly
                             (fun _ => 0%Q)))).
Proof.
  apply (learners_keep_keys_hashed "_" [0; 3; 1; 4; 2]%Z (numeric primed) primed).
  - reflexivity.
  - exact primed_keysHashed.
  - exact primed_keysHashed.
Defined.

End KeysInvariant.

Section PolicyComposition.

Import TicTacToe Agent.
Local Open Scope Q_scope.

(** X23: called in turn, the random agent can return an action, for some
    random numbers in [[0, 1)], exactly when [getValidActions] lists it. *)
Theorem random_policy_returns_any_legal_action
    (a : Agent.t) (game : TicTacToe.t) (horizon : option nat) (x : nat) :
  inTurn a game horizon ->
  canReturnRandom a game horizon x <-> In x (getValidActions game horizon).
Proof.
  intros Hturn. apply aligned_iff in Hturn. unfold canReturnRandom, RandomAgent.policy.
  rewrite Hturn.
  destruct (getValidActions game horizon) as [|y legal] eqn:Hlegal.
  { split; [intros (r & r' & _ & H); discriminate|intros []]. }
  cbn [length Nat.eqb Math_random]. split.
  - intros (r & r' & Hr & Hp). injection Hp as Hp _. by apply randomChoice_In in Hp.
  - intros Hx. destruct (randomChoice_reaches _ x Hx) as (u & Hu & Hchoice).
    exists (fun _ => u), (fun _ => u). split; [by intros _|]. by rewrite Hchoice.
Qed.

Lemma random_policy_returns_any_legal_action_witness :
  canReturnRandom nearTies (TicTacToe.new "_") None 6
  <-> In 6%nat (getValidActions (TicTacToe.new "_") None).
Proof.
  apply random_policy_returns_any_legal_action. intros _. reflexivity.
Defined.



End PolicyComposition.

Section MonteCarloReturns.

Import TicTacToe Agent MonteCarloAgent.
Local Open Scope Q_scope.

Lemma weighted_horner (gamma w : number) (rs : list number) :
  weighted gamma w rs == w * horner gamma 0 rs.
Proof.
  revert w. induction rs as [|r rs IH]; intros w; simpl.
  - ring.
  - rewrite IH. unfold horner. ring.
Qed.

Lemma totals_ext (a a' : Agent.t) (t : option number) (j : Z) (n : nat) :
  rewards a' = rewards a -> discount a' = discount a -> totals a' t j n = totals a t j n.
Proof.
  intros Hr Hd. revert t j. induction n as [|n IH]; intros t j; simpl; [done|].
  assert (accumulate a' j t = accumulate a j t) as ->.
  { unfold accumulate, rewardAt. by rewrite Hr, Hd. }
  by rewrite IH.
Qed.

Lemma backward_totals (game : TicTacToe.t) (steps : list nat) (l : learner)
    (totalReward : option number) (j : Z) :
  stepsInHistory game steps ->
  exists us,
    backward game l totalReward j steps = (applyAssignments l us, None)
    /\ map snd us = totals (agent l) totalReward j (length steps).
Proof.
  revert l totalReward j.
  induction steps as [|i steps IH]; intros l totalReward j Hsteps; simpl.
  - by exists [].
  - apply Forall_cons in Hsteps as [Hi Hsteps].
    apply lookup_lt_is_Some in Hi as [s ->].
    match goal with
    | |- context [backward game (assign l ?k ?t) ?t ?j' steps] =>
        destruct (IH (assign l k t) t j' Hsteps) as (us & -> & Hus);
        destruct (assign_agent l k t) as [g Ha];
        exists ((k, t) :: us)
    end.
    split; [reflexivity|]. cbn [map snd]. rewrite Hus. f_equal.
    apply totals_ext; by rewrite Ha.
Qed.

Lemma totals_length (a : Agent.t) (t : option number) (j : Z) (n : nat) :
  length (totals a t j n) = n.
Proof. revert t j. induction n as [|n IH]; intros t j; simpl; [done|]. by rewrite IH. Qed.

Lemma totals_number (a : Agent.t) (t0 : number) (j : Z) (n k : nat) (g : option number) :
  (0 <= j - Z.of_nat k)%Z -> (j < Z.of_nat (length (rewards a)))%Z ->
  totals a (Some t0) j n !! k = Some g ->
  g = Some (horner (discount a) t0 (take (S k) (drop (Z.to_nat j - k) (rewards a)))).
Proof.
  revert t0 j k. induction n as [|n IH]; intros t0 j k Hlow Hhigh; simpl; [done|].
  assert (exists rj, rewards a !! Z.to_nat j = Some rj) as [rj Hrj]
    by (apply lookup_lt_is_Some; lia).
  assert (accumulate a j (Some t0) = Some (rj + discount a * t0)) as ->.
  { unfold accumulate, rewardAt. destruct (Z.ltb_spec j 0); [lia|]. by rewrite Hrj. }
  destruct k as [|k]; simpl.
  - intros [= <-]. by rewrite Nat.sub_0_r, (drop_S _ _ _ Hrj).
  - intros Hk. apply IH in Hk; [|lia|lia]. rewrite Hk. f_equal.
    replace (Z.to_nat (j - 1) - k)%nat with (Z.to_nat j - S k)%nat by lia.
    rewrite (take_S_r (drop (Z.to_nat j - S k) (rewards a)) (S k) rj).
    + unfold horner. by rewrite fold_right_app.
    + rewrite lookup_drop. rewrite <- Hrj. f_equal. lia.
Qed.

Lemma totals_nan (a : Agent.t) (t : option number) (j : Z) (n k : nat) (g : option number) :
  t = None \/ (j - Z.of_nat k < 0)%Z \/ (Z.of_nat (length (rewards a)) <= j)%Z ->
  totals a t j n !! k = Some g -> g = None.
Proof.
  revert t j k. induction n as [|n IH]; intros t j k Hout; simpl; [done|].
  destruct k as [|k]; simpl.
  - intros [= <-]. unfold accumulate, rewardAt.
    destruct Hout as [-> | [Hlow | Hhigh]].
    + by destruct (if (j <? 0)%Z then None else rewards a !! Z.to_nat j).
    + destruct (Z.ltb_spec j 0); [done|lia].
    + destruct (Z.ltb_spec j 0); [done|].
      by rewrite lookup_ge_None_2 by lia.
  - apply IH. destruct Hout as [-> | [Hlow | Hhigh]].
    + left. unfold accumulate.
      by destruct (rewardAt a j).
    + right; left. lia.
    + left. unfold accumulate, rewardAt.
      destruct (Z.ltb_spec j 0); [done|].
      by rewrite lookup_ge_None_2 by lia.
Qed.

(** X25: the backward loop of [MonteCarloAgent.learn], run from a total of 0
    and the reward index [j] over steps that index snapshots of the game,
    completes, and it applies one assignment for each step. As long as the
    reward index stays inside [rewards], the return of the [k]-th is the
    discounted sum of the [k + 1] rewards that end at index [j]:
    [rewards[j-k] + discount * rewards[j-k+1] + ...]. Once the index has run
    below zero, or if it starts past the end, the return is [NaN]. *)
Theorem backward_assigns_discounted_returns
    (game : TicTacToe.t) (steps : list nat) (l : learner) (j : Z) :
  stepsInHistory game steps ->
  exists us,
    backward game l (Some 0) j steps = (applyAssignments l us, None)
    /\ length us = length steps
    /\ forall k g, map snd us !! k = Some g ->
         ((0 <= j - Z.of_nat k)%Z -> (j < Z.of_nat (length (rewards (agent l))))%Z ->
          exists q, g = Some q
            /\ q == discountedSum (discount (agent l))
                      (take (S k) (drop (Z.to_nat j - k) (rewards (agent l)))))
         /\ ((j - Z.of_nat k < 0)%Z \/ (Z.of_nat (length (rewards (agent l))) <= j)%Z ->
             g = None).
Proof.
  intros Hsteps.
  destruct (backward_totals game steps l (Some 0) j Hsteps) as (us & Hback & Hus).
  exists us. split; [done|].
  split; [by rewrite <- (length_map snd), Hus, totals_length|].
  intros k g Hk. rewrite Hus in Hk. split.
  - intros Hlow Hhigh. eexists. split; [by eapply totals_number|].
    unfold discountedSum. rewrite weighted_horner. ring.
  - intros Hout. eapply totals_nan; [|exact Hk]. by right.
Qed.

Lemma backward_assigns_discounted_returns_witness :
  exists us,
    backward winGame (numeric mcAgent) (Some 0) 1 [4; 2; 0]%nat
    = (applyAssignments (numeric mcAgent) us, None)
    /\ length us = 3%nat
    /\ forall k g, map snd us !! k = Some g ->
         ((0 <= 1 - Z.of_nat k)%Z -> (1 < 3)%Z ->
          exists q, g = Some q
            /\ q == discountedSum (1 # 2) (take (S k) (drop (1 - k) [0; 0; 1])))
         /\ ((1 - Z.of_nat k < 0)%Z \/ (3 <= 1)%Z -> g = None).
Proof.
  apply (backward_assigns_discounted_returns winGame [4; 2; 0]%nat (numeric mcAgent) 1).
  assert (length (stateHistory winGame) = 6%nat) as Hlen by (vm_compute; reflexivity).
  unfold stepsInHistory. rewrite Hlen.
  repeat (apply Forall_cons; split; [lia|]). apply Forall_nil_2.
Defined.



End MonteCarloReturns.

(** *** Resetting and rendering a game *)

Section ResetAndRender.

Import TicTacToe.

(** X27: [reset] after any sequence of calls of [move] on a fresh game gives
    the fresh game with the same marker back: all nine cells are legal
    actions and it is the turn of X. *)
Theorem reset_restores_fresh_game (marker : string) (moves : list Z) (horizon : option nat) :
  let g := reset (playFrom (new marker) moves) in
  g = new marker
  /\ getValidActions g horizon = [0; 1; 2; 3; 4; 5; 6; 7; 8]
  /\ currentPlayer g = "X".
Proof.
  cbn zeta. unfold reset. rewrite playFrom_nll. cbn [nll new].
  split; [done|]. split; [|done].
  unfold getValidActions. cbn. rewrite String.eqb_refl. reflexivity.
Qed.

Lemma shown_char (g : t) (index : nat) (c : ascii) :
  get (state g) index = Str (String c "") ->
  shown g index = Str (String (shownChar (nll g) c) "").
Proof.
  intros Hc. unfold shown, shownChar. rewrite Hc. cbn [loose_eq].
  by destruct (String.eqb _ _).
Qed.

(** X28: for a board of nine one-character cells, [toString] has thirty
    characters, and the character at position [12 i + 2 j] is the one of
    cell [(i, j)], a space standing for the empty marker. *)
Theorem toString_layout (g : t) :
  wellFormed (state g) ->
  String.length (toString g) = 30
  /\ forall i j c, i < 3 -> j < 3 ->
       get (state g) (unroll i j) = Str (String c "") ->
       String.get (12 * i + 2 * j) (toString g) = Some (shownChar (nll g) c).
Proof.
  intros [Hlen Hall].
  assert (forall k, k < 9 -> exists c, get (state g) k = Str (String c "")) as Hcell.
  { intros k Hk. unfold get. destruct (state g !! k) as [v|] eqn:Hv.
    - rewrite Forall_forall in Hall. apply Hall. by eapply list_elem_of_lookup_2.
    - apply lookup_ge_None in Hv. lia. }
  destruct (Hcell 0) as [c0 H0]; [lia|]. destruct (Hcell 1) as [c1 H1]; [lia|].
  destruct (Hcell 2) as [c2 H2]; [lia|]. destruct (Hcell 3) as [c3 H3]; [lia|].
  destruct (Hcell 4) as [c4 H4]; [lia|]. destruct (Hcell 5) as [c5 H5]; [lia|].
  destruct (Hcell 6) as [c6 H6]; [lia|]. destruct (Hcell 7) as [c7 H7]; [lia|].
  destruct (Hcell 8) as [c8 H8]; [lia|].
  unfold toString, rowString. cbn [map unroll Nat.mul Nat.add].
  rewrite (shown_char g 0 c0 H0), (shown_char g 1 c1 H1), (shown_char g 2 c2 H2),
    (shown_char g 3 c3 H3), (shown_char g 4 c4 H4), (shown_char g 5 c5 H5),
    (shown_char g 6 c6 H6), (shown_char g 7 c7 H7), (shown_char g 8 c8 H8).
  generalize (shownChar (nll g)). intros f.
  split; [reflexivity|].
  intros i j c Hi Hj Hc.
  destruct i as [|[|[|i]]], j as [|[|[|j]]]; try lia;
    cbn [unroll Nat.mul Nat.add] in Hc;
    rewrite ?H0, ?H1, ?H2, ?H3, ?H4, ?H5, ?H6, ?H7, ?H8 in Hc;
    injection Hc as <-; reflexivity.
Qed.

Lemma toString_layout_witness :
  String.length (toString winGame) = 30
  /\ forall i j c, i < 3 -> j < 3 ->
       get (state winGame) (unroll i j) = Str (String c "") ->
       String.get (12 * i + 2 * j) (toString winGame) = Some (shownChar (nll winGame) c).
Proof.
  apply (toString_layout winGame).
  split; [reflexivity|].
  vm_compute. repeat constructor; eexists; reflexivity.
Defined.

End ResetAndRender.
